(** * QuickContract: the URL-to-contract pipeline of [app/contract.py] and
    [app/main.py], embedded in Rocq.

    Python values are modelled as the interpreter has them: a [str] is a
    sequence of Unicode code points, [len] counts code points, an exception is
    a value of [exn] carried by the [Raise] branch of a result.  The external
    collaborators (URL parser, HTTP client, readability, entity decoder,
    generative model) are the fields of the class [Externals]. *)

From Stdlib Require Import Ascii String.
From Stdlib Require Import List ZArith NArith Lia Bool.
Import ListNotations.

Set Implicit Arguments.

(** ** Python strings *)

Module PyStr.

Definition char := N.
Definition str := list char.

Definition len (s : str) : Z := Z.of_nat (length s).

(** UTF-8 decoding, used only to write the program's string literals in
    readable form. *)
Fixpoint utf8_decode (bs : list N) : str :=
  match bs with
  | [] => []
  | b :: r =>
    if (b <? 128)%N then b :: utf8_decode r
    else if (b <? 224)%N then
      match r with
      | b1 :: r1 => ((b - 192) * 64 + (b1 - 128))%N :: utf8_decode r1
      | _ => []
      end
    else if (b <? 240)%N then
      match r with
      | b1 :: b2 :: r2 =>
        ((b - 224) * 4096 + (b1 - 128) * 64 + (b2 - 128))%N :: utf8_decode r2
      | _ => []
      end
    else
      match r with
      | b1 :: b2 :: b3 :: r3 =>
        ((b - 240) * 262144 + (b1 - 128) * 4096 + (b2 - 128) * 64 + (b3 - 128))%N
          :: utf8_decode r3
      | _ => []
      end
  end.

Definition utf8 (s : String.string) : str :=
  utf8_decode (map Ascii.N_of_ascii (String.list_ascii_of_string s)).

Definition LF : char := 10%N.
Definition CR : char := 13%N.
Definition TAB : char := 9%N.
Definition SP : char := 32%N.

(** [str.isspace] on one code point, which is also the class [\s] of [re]
    on [str] patterns: bidirectional types WS, B, S and category Zs. *)
Definition isspace (c : char) : bool :=
  ((9 <=? c) && (c <=? 13) || (28 <=? c) && (c <=? 32)
   || (c =? 133) || (c =? 160) || (c =? 5760)
   || (8192 <=? c) && (c <=? 8202)
   || (c =? 8232) || (c =? 8233) || (c =? 8239) || (c =? 8287)
   || (c =? 12288))%N.

Fixpoint lstrip (s : str) : str :=
  match s with
  | [] => []
  | c :: s' => if isspace c then lstrip s' else s
  end.

Fixpoint rstrip (s : str) : str :=
  match s with
  | [] => []
  | c :: s' =>
    match rstrip s' with
    | [] => if isspace c then [] else [c]
    | r => c :: r
    end
  end.

(** [s.strip()] *)
Definition strip (s : str) : str := rstrip (lstrip s).

(** [s.split(sep)] for a separator of one character. *)
Fixpoint split (sep : char) (s : str) : list str :=
  match s with
  | [] => [[]]
  | c :: s' =>
    if (c =? sep)%N then [] :: split sep s'
    else match split sep s' with
         | l :: ls => (c :: l) :: ls
         | [] => [[c]]
         end
  end.

(** [sep.join(parts)] *)
Fixpoint join (sep : str) (parts : list str) : str :=
  match parts with
  | [] => []
  | [p] => p
  | p :: ps => p ++ sep ++ join sep ps
  end.

Fixpoint startswith (p s : str) : bool :=
  match p, s with
  | [], _ => true
  | _ :: _, [] => false
  | a :: p', b :: s' => (a =? b)%N && startswith p' s'
  end.

(** [needle in hay] *)
Fixpoint contains (needle hay : str) : bool :=
  startswith needle hay
  || match hay with
     | [] => false
     | _ :: hay' => contains needle hay'
     end.

(** [s[:n]] for [n >= 0] *)
Definition slice_to (n : Z) (s : str) : str := firstn (Z.to_nat n) s.

(** [str(n)] for an [int]. *)
Fixpoint digits_of_uint (d : Decimal.uint) : str :=
  match d with
  | Decimal.Nil => []
  | Decimal.D0 d => 48%N :: digits_of_uint d
  | Decimal.D1 d => 49%N :: digits_of_uint d
  | Decimal.D2 d => 50%N :: digits_of_uint d
  | Decimal.D3 d => 51%N :: digits_of_uint d
  | Decimal.D4 d => 52%N :: digits_of_uint d
  | Decimal.D5 d => 53%N :: digits_of_uint d
  | Decimal.D6 d => 54%N :: digits_of_uint d
  | Decimal.D7 d => 55%N :: digits_of_uint d
  | Decimal.D8 d => 56%N :: digits_of_uint d
  | Decimal.D9 d => 57%N :: digits_of_uint d
  end.

Definition str_of_int (z : Z) : str :=
  match Z.to_int z with
  | Decimal.Pos d => digits_of_uint d
  | Decimal.Neg d => 45%N :: digits_of_uint d
  end.

End PyStr.
Import PyStr.

(** ** The fragment of [re] the program uses *)

Module Re.

(** Every pattern of the program is a sequence of single-character classes,
    each taken once, [*] times or [+] times (greedy). *)
Inductive item :=
| One (cls : char -> bool)
| Star (cls : char -> bool)
| Plus (cls : char -> bool).

Definition pattern := list item.

(** Greedy repetition with backtracking: as many characters of the class as
    possible, giving characters back until the continuation [k] matches. *)
Fixpoint star (cls : char -> bool) (k : str -> option nat) (s : str) : option nat :=
  match s with
  | [] => k []
  | c :: s' =>
    if cls c then
      match star cls k s' with
      | Some n => Some (S n)
      | None => k s
      end
    else k s
  end.

(** The length of the match of [p] at the start of [s], if there is one. *)
Fixpoint match_here (p : pattern) (s : str) : option nat :=
  match p with
  | [] => Some 0%nat
  | One cls :: p' =>
    match s with
    | c :: s' => if cls c then option_map S (match_here p' s') else None
    | [] => None
    end
  | Star cls :: p' => star cls (match_here p') s
  | Plus cls :: p' =>
    match s with
    | c :: s' => if cls c then option_map S (star cls (match_here p') s') else None
    | [] => None
    end
  end.

(** [re.sub(p, repl, s)] for a pattern that matches no empty string: scan
    from the left, replace the match found at the current position and go on
    after it, copy the character otherwise.  [skip] counts the characters of
    the current match still to be dropped. *)
Fixpoint sub_from (p : pattern) (repl : str) (s : str) (skip : nat) : str :=
  match s with
  | [] => []
  | c :: s' =>
    match skip with
    | S k => sub_from p repl s' k
    | O =>
      match match_here p s with
      | Some (S n) => repl ++ sub_from p repl s' n
      | _ => c :: sub_from p repl s' 0
      end
    end
  end.

Definition sub (p : pattern) (repl : str) (s : str) : str := sub_from p repl s 0.

(** [re.search(p, s) is not None] *)
Fixpoint search (p : pattern) (s : str) : bool :=
  match match_here p s with
  | Some _ => true
  | None =>
    match s with
    | [] => false
    | _ :: s' => search p s'
    end
  end.

End Re.

(** ** Exceptions, outcomes and external calls *)

(** The exception classes the [except] clauses of the program tell apart.
    [Timeout], [ConnectionError] and [RequestException] are the classes of
    [requests.exceptions], each standing for the exceptions its clause
    catches; [Exception] stands for every other exception. *)
Inductive exn_class := Timeout | ConnectionError | RequestException | Exception.

(** An exception: FastAPI's [HTTPException], or an [Error] of another class
    with [msg] its [str(e)]. *)
Inductive exn :=
| HTTPException (status_code : Z) (detail : str)
| Error (cls : exn_class) (msg : str).

Inductive outcome (A : Type) :=
| Ok (a : A)
| Raise (e : exn).
Arguments Ok {A} a.
Arguments Raise {A} e.

(** [{"role": ..., "parts": [...]}] *)
Record message := { role : str; parts : list str }.

(** The calls that leave the process. *)
Inductive event :=
| EvGet (url : str) (timeout : Z) (headers : list (str * str))
| EvGenerate (model : str) (messages : list message).

(** A computation returns or raises, and records the external calls it made. *)
Definition M (A : Type) : Type := (outcome A * list event)%type.

Definition ret {A} (a : A) : M A := (Ok a, []).
Definition raise {A} (e : exn) : M A := (Raise e, []).
Definition lift {A} (r : outcome A) : M A := (r, []).

Definition bind {A B} (m : M A) (f : A -> M B) : M B :=
  match m with
  | (Ok a, t) => let (r, t') := f a in (r, t ++ t')
  | (Raise e, t) => (Raise e, t)
  end.

(** [try: m  except ...: h] *)
Definition try_except {A} (m : M A) (h : exn -> M A) : M A :=
  match m with
  | (Ok a, t) => (Ok a, t)
  | (Raise e, t) => let (r, t') := h e in (r, t ++ t')
  end.

Notation "x <- c ;; k" := (bind c (fun x => k))
  (at level 61, c at next level, right associativity).

Definition result {A} (m : M A) : outcome A := fst m.
Definition calls {A} (m : M A) : list event := snd m.

(** The prompts sent to the generative model, in order. *)
Fixpoint model_calls (t : list event) : list (list message) :=
  match t with
  | [] => []
  | EvGenerate _ ms :: t' => ms :: model_calls t'
  | EvGet _ _ _ :: t' => model_calls t'
  end.

(** What [urlparse] returns, as far as the program reads it. *)
Record ParseResult := { scheme : str; netloc : str }.

(** What [requests.get] returns, as far as the program reads it:
    [content_type_header] is [response.headers.get('content-type')]. *)
Record Response := {
  status_code : Z;
  content_type_header : option str;
  text : str
}.

(** [readability.Document]: [title()] and [summary()]. *)
Record ReadabilityDoc := { title : option str; summary : option str }.

(** The libraries and services the program calls.  Each is a function of its
    arguments; one that can raise returns an [outcome].  [html.unescape] is
    among them: it turns a decimal character reference into a number with
    [int], which raises [ValueError] on more digits than the interpreter
    converts. *)
Class Externals := {
  urlparse : str -> outcome ParseResult;
  str_lower : str -> str;
  requests_get : str -> Z -> list (str * str) -> outcome Response;
  Document : str -> outcome ReadabilityDoc;
  html_unescape : str -> outcome str;
  generate_content : str -> list message -> outcome (option str);
  SYSTEM_PROMPT : str
}.

Fixpoint str_eqb (a b : str) : bool :=
  match a, b with
  | [], [] => true
  | x :: a', y :: b' => (x =? y)%N && str_eqb a' b'
  | _, _ => false
  end.

(** ** [app/contract.py] *)

Section Contract.

Context {E : Externals}.

Definition validate_url (url : str) : bool :=
  match urlparse url with
  | Ok parsed =>
    existsb (str_eqb (scheme parsed)) [utf8 "http"; utf8 "https"]
    && negb (str_eqb (netloc parsed) [])
  | Raise _ => false
  end.

Definition headers : list (str * str) :=
  [ (utf8 "User-Agent",
     utf8 "Mozilla/5.0 (Windows NT 10.0; Win64; x64) AppleWebKit/537.36 (KHTML, like Gecko) Chrome/91.0.4472.124 Safari/537.36");
    (utf8 "Accept",
     utf8 "text/html,application/xhtml+xml,application/xml;q=0.9,image/webp,*/*;q=0.8");
    (utf8 "Accept-Language", utf8 "ja,en-US;q=0.7,en;q=0.3");
    (utf8 "Accept-Encoding", utf8 "gzip, deflate");
    (utf8 "Connection", utf8 "keep-alive") ].

Definition http_get (url : str) (timeout : Z) : M Response :=
  (requests_get url timeout headers, [EvGet url timeout headers]).

Definition detail_invalid_url : str :=
  utf8 "無効なURLです。http または https で始まるURLを指定してください。".
Definition detail_status (code : Z) : str :=
  utf8 "URLの取得に失敗しました。ステータスコード: " ++ str_of_int code.
Definition detail_not_html : str :=
  utf8 "HTMLページではありません。HTMLページのURLを指定してください。".
Definition detail_timeout : str :=
  utf8 "URLの取得がタイムアウトしました。別のURLを試してください。".
Definition detail_connection : str :=
  utf8 "URLに接続できませんでした。URLが正しいかご確認ください。".
Definition detail_request (msg : str) : str :=
  utf8 "URLの取得中にエラーが発生しました: " ++ msg.
Definition detail_unexpected (msg : str) : str :=
  utf8 "予期しないエラーが発生しました: " ++ msg.

(** The [except] clauses of [fetch_url_content], in their order. *)
Definition fetch_except (e : exn) : M str :=
  match e with
  | Error Timeout _ => raise (HTTPException 400 detail_timeout)
  | Error ConnectionError _ => raise (HTTPException 400 detail_connection)
  | Error RequestException msg => raise (HTTPException 400 (detail_request msg))
  | HTTPException c d => raise (HTTPException c d)
  | Error Exception msg => raise (HTTPException 500 (detail_unexpected msg))
  end.

(** The [try] block of [fetch_url_content]. *)
Definition fetch_body (url : str) (timeout : Z) : M str :=
  response <- http_get url timeout ;;
  if negb (status_code response =? 200)%Z then
    raise (HTTPException 400 (detail_status (status_code response)))
  else
    let content_type :=
      str_lower (match content_type_header response with
                 | Some v => v
                 | None => []
                 end) in
    if negb (existsb (fun ct => contains ct content_type)
                     [utf8 "text/html"; utf8 "application/xhtml"]) then
      raise (HTTPException 400 detail_not_html)
    else ret (text response).

Definition fetch_url_content (url : str) (timeout : Z) : M str :=
  if negb (validate_url url) then raise (HTTPException 400 detail_invalid_url)
  else try_except (fetch_body url timeout) fetch_except.

(** [r'<[^>]+>'] *)
Definition re_tag : Re.pattern :=
  [Re.One (N.eqb 60); Re.Plus (fun c => negb (c =? 62)%N); Re.One (N.eqb 62)].

Definition _remove_html_tags (text : str) : outcome str :=
  let clean_text := Re.sub re_tag [] text in
  html_unescape clean_text.

(** [r' +'] *)
Definition re_spaces : Re.pattern := [Re.Plus (N.eqb SP)].

(** [r'\n\s*\n\s*\n+'] *)
Definition re_blank_lines : Re.pattern :=
  [Re.One (N.eqb LF); Re.Star isspace; Re.One (N.eqb LF); Re.Star isspace;
   Re.Plus (N.eqb LF)].

Definition _clean_whitespace (text : str) : str :=
  let text := Re.sub re_spaces [SP] text in
  let text := Re.sub re_blank_lines [LF; LF] text in
  let lines := map strip (split LF text) in
  let text := join [LF] lines in
  strip text.

Definition detail_no_content : str :=
  utf8 "ページから有効なコンテンツを抽出できませんでした。".
Definition detail_too_short_extract : str :=
  utf8 "抽出されたテキストが短すぎます。より内容のあるページを指定してください。".
Definition detail_extract_error (msg : str) : str :=
  utf8 "テキスト抽出中にエラーが発生しました: " ++ msg.

(** The [except] clauses of [extract_main_content]. *)
Definition extract_except (e : exn) : outcome str :=
  match e with
  | HTTPException c d => Raise (HTTPException c d)
  | Error _ msg => Raise (HTTPException 500 (detail_extract_error msg))
  end.

(** The text before normalisation: the summary without its tags and, when
    there is a title, the title without its tags and a blank line before it.
    The summary is decoded first, the title after it; either decoding can
    raise. *)
Definition full_text (title : option str) (content : str) : outcome str :=
  match _remove_html_tags content with
  | Raise e => Raise e
  | Ok clean_content =>
    match title with
    | Some (c :: t) =>
      if negb (str_eqb (strip (c :: t)) []) then
        match _remove_html_tags (c :: t) with
        | Raise e => Raise e
        | Ok clean_title => Ok (clean_title ++ [LF; LF] ++ clean_content)
        end
      else Ok clean_content
    | _ => Ok clean_content
    end
  end.

(** The [try] block of [extract_main_content]. *)
Definition extract_body (html_content : str) : outcome str :=
  match Document html_content with
  | Raise e => Raise e
  | Ok doc =>
    match summary doc with
    | None | Some [] => Raise (HTTPException 400 detail_no_content)
    | Some content =>
      match full_text (title doc) content with
      | Raise e => Raise e
      | Ok full_text =>
        let full_text := _clean_whitespace full_text in
        if str_eqb full_text [] || (len (strip full_text) <? 10)%Z then
          Raise (HTTPException 400 detail_too_short_extract)
        else Ok full_text
      end
    end
  end.

Definition extract_main_content (html_content : str) : outcome str :=
  match extract_body html_content with
  | Ok t => Ok t
  | Raise e => extract_except e
  end.

End Contract.

(** ** [app/main.py] *)

Section Main.

Context {E : Externals}.

Record ContractResponse := { contract : str; url : str }.

Definition detail_too_short_main : str :=
  utf8 "抽出されたテキストが短すぎます。有効なWebページのURLを指定してください。".
Definition detail_generation_failed : str :=
  utf8 "契約文の生成に失敗しました。しばらく時間をおいて再試行してください。".
Definition detail_generation_error (msg : str) : str :=
  utf8 "契約文生成中にエラーが発生しました: " ++ msg.

(** ['。'] *)
Definition MARU : char := 12290%N.

(** [r'[\n\r\t]+'] *)
Definition is_nrt (c : char) : bool := ((c =? LF) || (c =? CR) || (c =? TAB))%N.
Definition re_newlines : Re.pattern := [Re.Plus is_nrt].

(** The model the endpoint calls. *)
Definition MODEL : str := utf8 "gemini-2.5-pro".

(** The message list of the one call to the model. *)
Definition prompt (main_text : str) : list message :=
  [ {| role := utf8 "user";
       parts := [ SYSTEM_PROMPT ++ [LF; LF]
                  ++ utf8 "以下のテキストから契約文を生成してください："
                  ++ [LF; LF] ++ main_text ] |} ].

Definition model_generate (model : str) (messages : list message)
  : M (option str) :=
  (generate_content model messages, [EvGenerate model messages]).

(** Lines 124 to 131: the contract made of [response.text]. *)
Definition contract_text (response_text : str) : str :=
  let contract_text := Re.sub re_newlines [] (strip response_text) in
  if (len contract_text >? 60)%Z then
    let sentences := split MARU contract_text in
    if (1 <? Z.of_nat (length sentences))%Z
       && (len (hd [] sentences ++ [MARU]) <=? 60)%Z
    then hd [] sentences ++ [MARU]
    else contract_text
  else contract_text.

(** The [except] clauses of [generate_contract]. *)
Definition main_except (e : exn) : M ContractResponse :=
  match e with
  | HTTPException c d => raise (HTTPException c d)
  | Error _ msg => raise (HTTPException 500 (detail_generation_error msg))
  end.

(** The text of the prompt: the first 150000 characters at most. *)
Definition truncate (main_text : str) : str :=
  if (len main_text >? 150000)%Z then slice_to 150000 main_text else main_text.

(** Lines 99 to 136: from the length check to the response. *)
Definition orchestrate (request_url main_text : str) : M ContractResponse :=
  if str_eqb main_text [] || (len (strip main_text) <? 50)%Z then
    raise (HTTPException 400 detail_too_short_main)
  else
    let main_text := truncate main_text in
    response_text <- model_generate MODEL (prompt main_text) ;;
    match response_text with
    | None | Some [] => raise (HTTPException 500 detail_generation_failed)
    | Some response_text =>
      ret {| contract := contract_text response_text; url := request_url |}
    end.

(** The [try] block of [generate_contract]; [request_url] is
    [str(request.url)]. *)
Definition generate_body (request_url : str) : M ContractResponse :=
  html_content <- fetch_url_content request_url 10 ;;
  main_text <- lift (extract_main_content html_content) ;;
  orchestrate request_url main_text.

Definition generate_contract (request_url : str) : M ContractResponse :=
  try_except (generate_body request_url) main_except.

End Main.

(** * The vocabulary of the properties *)

(** A string that does not begin, respectively end, with whitespace. *)
Definition lstripped (l : str) : bool :=
  match l with
  | [] => true
  | c :: _ => negb (isspace c)
  end.

Fixpoint rstripped (l : str) : bool :=
  match l with
  | [] => true
  | [c] => negb (isspace c)
  | _ :: l' => rstripped l'
  end.

Definition is_LF (c : char) : bool := (LF =? c)%N.
Definition first_line (s : str) : str := hd [] (split LF s).
Definition other_lines (s : str) : list str := tl (split LF s).

(** Every line is stripped on the left, respectively on the right. *)
Definition lines_l (s : str) : Prop := Forall (fun l => lstripped l = true) (split LF s).
Definition lines_r (s : str) : Prop := Forall (fun l => rstripped l = true) (split LF s).

(** No two consecutive space characters. *)
Fixpoint nodsp (s : str) : bool :=
  match s with
  | a :: (b :: _) as t => negb ((a =? SP)%N && (b =? SP)%N) && nodsp t
  | _ => true
  end.

(** [wsdel s t]: [t] is [s] with some whitespace characters deleted. *)
Inductive wsdel : str -> str -> Prop :=
| wsdel_nil : wsdel [] []
| wsdel_keep c s t : wsdel s t -> wsdel (c :: s) (c :: t)
| wsdel_drop c s t : isspace c = true -> wsdel s t -> wsdel (c :: s) t.

#[local] Hint Constructors wsdel : core.

(** The number of newlines in the whitespace [s] begins with. *)
Fixpoint wsnl (s : str) : nat :=
  match s with
  | c :: s' => if isspace c then (if is_LF c then 1 else 0) + wsnl s' else 0
  | [] => 0
  end.

(** Every run of whitespace holds two newlines at most. *)
Fixpoint ok2 (s : str) : bool :=
  match s with
  | [] => true
  | _ :: s' => (wsnl s <=? 2)%nat && ok2 s'
  end.

(** The end of the last newline in the whitespace [s] begins with (0 when it
    holds none). *)
Fixpoint lastnl (s : str) : nat :=
  match s with
  | c :: s' =>
    if isspace c then
      match lastnl s' with
      | S m => S (S m)
      | O => if is_LF c then 1 else 0
      end
    else 0
  | [] => 0
  end.

(** The length of the longest prefix of [s] in the class. *)
Fixpoint span (cls : char -> bool) (s : str) : nat :=
  match s with
  | c :: s' => if cls c then S (span cls s') else 0
  | [] => 0
  end.

(** The classes ['>'] and [[^>]]. *)
Definition is_gt (c : char) : bool := (62 =? c)%N.
Definition not_gt (c : char) : bool := negb (c =? 62)%N.

(** A tag starts here: ['<'], a character other than ['>'], and a ['>']
    further on. *)
Definition tag_at (s : str) : bool :=
  match s with
  | c :: d :: s' => (60 =? c)%N && not_gt d && existsb is_gt s'
  | _ => false
  end.

(** The normal form of [_clean_whitespace]: stripped as a whole and line by
    line, no two spaces in a row, at most two newlines in a run of
    whitespace. *)
Record normalized (s : str) : Prop := {
  norm_lstripped : lstripped s = true;
  norm_rstripped : rstripped s = true;
  norm_nodsp : nodsp s = true;
  norm_ok2 : ok2 s = true;
  norm_lines_l : lines_l s;
  norm_lines_r : lines_r s
}.

(** Equality of outcomes decided by computation, for long texts. *)
Definition outcome_eqb (a b : outcome str) : bool :=
  match a, b with
  | Ok x, Ok y => str_eqb x y
  | _, _ => false
  end.

(** The outcome a handler of [generate_contract] leaves. *)
Definition main_reraise (e : exn) : exn :=
  match e with
  | HTTPException c d => HTTPException c d
  | Error _ msg => HTTPException 500 (detail_generation_error msg)
  end.

(** ** Concrete collaborators *)

(** Instances of [Externals] for the concrete runs below: the library
    functions after their CPython definitions, the network, readability and
    the model as constant answers. *)
Module Examples.

(** [str.lower] on ASCII and Latin-1, the range of an HTTP header value. *)
Definition lower_char (c : char) : char :=
  if ((65 <=? c) && (c <=? 90)
      || (192 <=? c) && (c <=? 222) && negb (c =? 215))%N
  then (c + 32)%N else c.

Definition lower (s : str) : str := map lower_char s.

(** [urllib.parse.urlsplit]: the scheme before the first [':'] when it is a
    letter followed by scheme characters, the network location between
    ['//'] and the next ['/'], ['?'] or ['#']; an unmatched bracket in the
    network location raises [ValueError]. *)
Definition is_alpha (c : char) : bool :=
  ((65 <=? c) && (c <=? 90) || (97 <=? c) && (c <=? 122))%N.

Definition is_scheme_char (c : char) : bool :=
  (is_alpha c || (48 <=? c) && (c <=? 57)
   || (c =? 43) || (c =? 45) || (c =? 46))%N.

Fixpoint break_at (stop : char -> bool) (s : str) : str * str :=
  match s with
  | [] => ([], [])
  | c :: s' =>
    if stop c then ([], s)
    else let (a, b) := break_at stop s' in (c :: a, b)
  end.

Definition urlsplit (url : str) : outcome ParseResult :=
  let (head, rest) := break_at (N.eqb 58) url in
  let (scheme, url) :=
    match head, rest with
    | c :: _, _ :: rest' =>
      if is_alpha c && forallb is_scheme_char head then (lower head, rest')
      else ([], url)
    | _, _ => ([], url)
    end in
  match url with
  | 47%N :: 47%N :: r =>
    let netloc :=
      fst (break_at (fun c => (c =? 47) || (c =? 63) || (c =? 35))%N r) in
    let lb := existsb (N.eqb 91) netloc in
    let rb := existsb (N.eqb 93) netloc in
    if lb && negb rb || rb && negb lb
    then Raise (Error Exception (utf8 "Invalid IPv6 URL"))
    else Ok {| scheme := scheme; netloc := netloc |}
  | _ => Ok {| scheme := scheme; netloc := [] |}
  end.

(** [html.unescape] over a table [html5] of named references:
    [&(#[0-9]+;?|#[xX][0-9a-fA-F]+;?|[^\t\n\f <&#;]{1,32};?)] replaced by
    [_replace_charref], which raises the [ValueError] of [int] on a decimal
    reference of more than 4300 digits. *)
Section Unescape.

Variable html5 : list (str * str).

Fixpoint lookup (name : str) (table : list (str * str)) : option str :=
  match table with
  | [] => None
  | (k, v) :: table' => if str_eqb k name then Some v else lookup name table'
  end.

Definition is_digit (c : char) : bool := ((48 <=? c) && (c <=? 57))%N.

Definition hex_value (c : char) : option N :=
  if is_digit c then Some (c - 48)%N
  else if ((97 <=? c) && (c <=? 102))%N then Some (c - 87)%N
  else if ((65 <=? c) && (c <=? 70))%N then Some (c - 55)%N
  else None.

Definition is_name_char (c : char) : bool :=
  negb ((c =? 9) || (c =? 10) || (c =? 12) || (c =? 32)
        || (c =? 60) || (c =? 38) || (c =? 35) || (c =? 59))%N.

(** The longest prefix in the class, [n] characters at most. *)
Fixpoint take_class (cls : char -> bool) (n : nat) (s : str) : str :=
  match n, s with
  | S n', c :: s' => if cls c then c :: take_class cls n' s' else []
  | _, _ => []
  end.

Definition int_of (base : N) (digits : str) : N :=
  fold_left (fun acc c => match hex_value c with
                          | Some d => acc * base + d
                          | None => acc
                          end)%N digits 0%N.

Definition invalid_charrefs : list (N * N) :=
  [ (0, 65533); (13, 13); (128, 8364); (129, 129); (130, 8218); (131, 402);
    (132, 8222); (133, 8230); (134, 8224); (135, 8225); (136, 710);
    (137, 8240); (138, 352); (139, 8249); (140, 338); (141, 141); (142, 381);
    (143, 143); (144, 144); (145, 8216); (146, 8217); (147, 8220);
    (148, 8221); (149, 8226); (150, 8211); (151, 8212); (152, 732);
    (153, 8482); (154, 353); (155, 8250); (156, 339); (157, 157); (158, 382);
    (159, 376) ]%N.

Definition invalid_codepoint (n : N) : bool :=
  ((1 <=? n) && (n <=? 8) || (n =? 11) || (14 <=? n) && (n <=? 31)
   || (127 <=? n) && (n <=? 159) || (64976 <=? n) && (n <=? 65007)
   || (65534 <=? N.land n 65535) && (n <=? 1114111))%N.

Definition replace_numeric (num : N) : str :=
  match find (fun p => (fst p =? num)%N) invalid_charrefs with
  | Some (_, c) => [c]
  | None =>
    if ((55296 <=? num) && (num <=? 57343) || (1114111 <? num))%N then [65533%N]
    else if invalid_codepoint num then []
    else [num]
  end.

(** [for x in range(len(s)-1, 1, -1)] *)
Fixpoint longest_name (s : str) (x : nat) : option str :=
  match x with
  | S (S _ as x') =>
    match lookup (firstn x s) html5 with
    | Some v => Some (v ++ skipn x s)
    | None => longest_name s x'
    end
  | _ => None
  end.

Definition replace_named (s : str) : str :=
  match lookup s html5 with
  | Some v => v
  | None =>
    match longest_name s (length s - 1) with
    | Some r => r
    | None => 38%N :: s
    end
  end.

(** [int] converts a decimal string of this many digits at most. *)
Definition int_max_str_digits : nat := 4300.

Definition int_limit_message (digits : nat) : str :=
  utf8 "Exceeds the limit (4300 digits) for integer string conversion: value has "
  ++ str_of_int (Z.of_nat digits)
  ++ utf8 " digits; use sys.set_int_max_str_digits() to increase the limit".

(** The reference after an ['&'], if there is one: its replacement, or the
    [ValueError] of [int], and its length. *)
Definition charref (s : str) : option (outcome str * nat) :=
  let semi (rest : str) : nat :=
    match rest with
    | 59%N :: _ => 1%nat
    | _ => 0%nat
    end in
  match s with
  | 35%N :: s1 =>
    match take_class is_digit (length s1) s1 with
    | (_ :: _) as ds =>
      Some (if (int_max_str_digits <? length ds)%nat
            then Raise (Error Exception (int_limit_message (length ds)))
            else Ok (replace_numeric (int_of 10 ds)),
            (1 + length ds + semi (skipn (length ds) s1))%nat)
    | [] =>
      match s1 with
      | x :: s2 =>
        if ((x =? 120) || (x =? 88))%N then
          match take_class (fun c => match hex_value c with
                                     | Some _ => true
                                     | None => false
                                     end) (length s2) s2 with
          | (_ :: _) as hs =>
            Some (Ok (replace_numeric (int_of 16 hs)),
                  (2 + length hs + semi (skipn (length hs) s2))%nat)
          | [] => None
          end
        else None
      | [] => None
      end
    end
  | _ =>
    match take_class is_name_char 32 s with
    | (_ :: _) as name =>
      let n := (length name + semi (skipn (length name) s))%nat in
      Some (Ok (replace_named (firstn n s)), n)
    | [] => None
    end
  end.

(** What is put before the rest of the text, once the rest is decoded. *)
Definition before (prefix : str) (rest : outcome str) : outcome str :=
  match rest with
  | Ok r => Ok (prefix ++ r)
  | Raise e => Raise e
  end.

Fixpoint unescape_from (s : str) (skip : nat) : outcome str :=
  match s with
  | [] => Ok []
  | c :: s' =>
    match skip with
    | S k => unescape_from s' k
    | O =>
      if (c =? 38)%N then
        match charref s' with
        | Some (Ok repl, n) => before repl (unescape_from s' n)
        | Some (Raise e, _) => Raise e
        | None => before [c] (unescape_from s' 0)
        end
      else before [c] (unescape_from s' 0)
    end
  end.

Definition unescape (s : str) : outcome str := unescape_from s 0.

End Unescape.

(** The host inside a network location, as [urllib.parse] reads it
    ([SplitResult.hostname] before lower-casing): what follows the last
    ['@'], inside the brackets when there are brackets, up to the first
    [':'] otherwise. *)
Definition hostname (netloc : str) : str :=
  let hostinfo :=
    (fix after_at (s acc : str) : str :=
       match s with
       | [] => acc
       | c :: s' => if (c =? 64)%N then after_at s' s' else after_at s' acc
       end) netloc netloc in
  match snd (break_at (N.eqb 91) hostinfo) with
  | _ :: bracketed => fst (break_at (N.eqb 93) bracketed)
  | [] => fst (break_at (N.eqb 58) hostinfo)
  end.

(** The entries of [html.entities.html5] for the references of XML. *)
Definition html5_xml : list (str * str) :=
  [ (utf8 "amp", [38%N]); (utf8 "amp;", [38%N]);
    (utf8 "lt", [60%N]); (utf8 "lt;", [60%N]);
    (utf8 "gt", [62%N]); (utf8 "gt;", [62%N]);
    (utf8 "quot", [34%N]); (utf8 "quot;", [34%N]);
    (utf8 "apos;", [39%N]);
    (utf8 "nbsp", [160%N]); (utf8 "nbsp;", [160%N]) ].

(** A world: what the HTTP client, readability and the model answer. *)
Definition world (page : outcome Response) (doc : outcome ReadabilityDoc)
    (answer : outcome (option str)) : Externals :=
  {| urlparse := urlsplit;
     str_lower := lower;
     requests_get := fun _ _ _ => page;
     Document := fun _ => doc;
     html_unescape := unescape html5_xml;
     generate_content := fun _ _ => answer;
     SYSTEM_PROMPT := utf8 "あなたは契約文を作るアシスタントです。" |}.

Definition html_page (body : str) : outcome Response :=
  Ok {| status_code := 200;
        content_type_header := Some (utf8 "text/html; charset=utf-8");
        text := body |}.

Definition readable (t : str) (content : str) : outcome ReadabilityDoc :=
  Ok {| title := Some t; summary := Some content |}.

Definition URL : str := utf8 "https://example.com/article".

End Examples.


(** Concrete runs of the whole pipeline. *)
Module Runs.
Import Examples.

Definition article_title : str := utf8 "利用規約の概要".
Definition article : str :=
  utf8 "<html><body><div><p>本サービスの利用者は、登録した情報を正確に保ち、第三者に貸与しないものとします。</p><p>運営者は、事前の通知なくサービスの内容を変更できるものとします。</p></div></body></html>".

Definition article_text : str :=
  utf8 "利用規約の概要" ++ [LF; LF]
  ++ utf8 "本サービスの利用者は、登録した情報を正確に保ち、第三者に貸与しないものとします。運営者は、事前の通知なくサービスの内容を変更できるものとします。".

(** The world in which the page is the article and the model answers
    [answer]. *)
Definition answering (answer : outcome (option str)) : Externals :=
  world (html_page article) (readable article_title article) answer.

Definition article_response : Response :=
  {| status_code := 200;
     content_type_header := Some (utf8 "Text/HTML; charset=UTF-8");
     text := article |}.

Definition json_404 : Response :=
  {| status_code := 404;
     content_type_header := Some (utf8 "application/json");
     text := utf8 "{}" |}.

Definition two_sentences : str :=
  [SP; SP]
  ++ utf8 "利用者は登録情報を正確に保つ。"
  ++ [LF]
  ++ utf8 "運営者は、事前の通知なくサービスの内容を変更することができ、利用者はこれに異議を述べないものとする。"
  ++ [LF].

Ltac run := vm_compute; first [reflexivity | discriminate | lia | idtac].

End Runs.

(** A page too short for a contract. *)
Module ShortRun.
Import Examples.

Definition note : str := utf8 "<p>Closed for maintenance until Monday.</p>".
Definition short_world : Externals :=
  world (html_page note) (readable [] note) (Ok (Some (utf8 "unused"))).

End ShortRun.

(** A page longer than the prompt may be. *)
Module LongRun.
Import Examples.

(** A page of 150001 letters. *)
Definition long_text : str := repeat 97%N (Z.to_nat 150001).
Definition long_world : Externals :=
  world (html_page (utf8 "<p>a...</p>"))
        (Ok {| title := None; summary := Some long_text |})
        (Ok (Some (utf8 "a。"))).

End LongRun.

(** A page that shows markup. *)
Module EscapedRun.
Import Examples.

(** A page about HTML: its markup examples are escaped in the source, as
    readability hands them on. *)
Definition lesson_title : str := utf8 "Bold text".
Definition lesson : str :=
  utf8 "<html><body><div><p>Write &lt;b&gt;bold&lt;/b&gt; to make text bold, and &amp;amp; for an ampersand.</p></div></body></html>".
Definition lesson_text : str :=
  utf8 "Bold text" ++ [LF; LF]
  ++ utf8 "Write <b>bold</b> to make text bold, and &amp; for an ampersand.".
Definition lesson_world : Externals :=
  world (html_page lesson) (readable lesson_title lesson) (Ok None).

End EscapedRun.

(** A page whose one paragraph is mostly spaces. *)
Module SpacedRun.
Import Examples.

Definition faq_title : str := utf8 "FAQ".
Definition spaced : str := utf8 "<p>a          b</p>".
Definition spaced_world : Externals :=
  world (html_page spaced) (readable faq_title spaced) (Ok None).

End SpacedRun.

(** ** Further vocabulary *)

(** The characters of [s] that are not whitespace, in their order. *)
Definition visible (s : str) : str := filter (fun c => negb (isspace c)) s.

(** [subseq s t]: [t] is [s] with some characters deleted. *)
Inductive subseq : str -> str -> Prop :=
| subseq_nil : subseq [] []
| subseq_keep c s t : subseq s t -> subseq (c :: s) (c :: t)
| subseq_drop c s t : subseq s t -> subseq (c :: s) t.

#[local] Hint Constructors subseq : core.

(** [t] is a prefix of [s]. *)
Definition prefix_of (t s : str) : Prop := exists rest, s = t ++ rest.

(** No collaborator raises an [HTTPException] of its own. *)
Definition raise_no_http (E : Externals) : Prop :=
  (forall url timeout hs c d,
      requests_get url timeout hs <> Raise (HTTPException c d))
  /\ (forall html c d, Document html <> Raise (HTTPException c d))
  /\ (forall s c d, html_unescape s <> Raise (HTTPException c d))
  /\ (forall model ms c d, generate_content model ms <> Raise (HTTPException c d)).

(** The content type the fetcher looks at: the lower-cased [content-type]
    header, empty when the header is absent. *)
Definition content_type_of {E : Externals} (response : Response) : str :=
  str_lower (match content_type_header response with
             | Some v => v
             | None => []
             end).

(** The content type contains [text/html] or [application/xhtml]. *)
Definition html_family {E : Externals} (response : Response) : bool :=
  existsb (fun ct => contains ct (content_type_of response))
          [utf8 "text/html"; utf8 "application/xhtml"].

(** The model's answer made into the outcome of the request. *)
Definition answer_outcome {E : Externals} (request_url : str)
    (answer : outcome (option str)) : outcome ContractResponse :=
  match answer with
  | Ok (Some (c :: r)) =>
    Ok {| contract := contract_text (c :: r); url := request_url |}
  | Ok _ => Raise (HTTPException 500 detail_generation_failed)
  | Raise e => Raise (main_reraise e)
  end.

(** ** A reference for [_clean_whitespace] *)

(** The whitespace read since the last visible character is kept as the
    number of its newlines and as [buf], the run itself with each run of
    spaces made one space, its last character first. *)
Definition push (c : char) (buf : str) : str :=
  match buf with
  | x :: _ => if ((c =? SP) && (x =? SP))%N then buf else c :: buf
  | [] => [c]
  end.

(** What stands for a run of whitespace between two visible characters: the
    run with its spaces collapsed when it holds no newline, one newline when
    it holds one, two when it holds more. *)
Definition sep (nls : nat) (buf : str) : str :=
  match nls with
  | O => rev buf
  | 1%nat => [LF]
  | _ => [LF; LF]
  end.

(** One pass from the left: whitespace is held back until a visible
    character comes, and dropped at both ends of the text. *)
Fixpoint squeeze_from (started : bool) (nls : nat) (buf : str) (s : str) : str :=
  match s with
  | [] => []
  | c :: s' =>
    if isspace c then
      squeeze_from started ((if is_LF c then 1 else 0) + nls) (push c buf) s'
    else
      (if started then sep nls buf else []) ++ c :: squeeze_from true 0 [] s'
  end.

Definition squeeze (s : str) : str := squeeze_from false 0 [] s.

(** Two states of the pass that no continuation tells apart. *)
Definition same_gap (started : bool) (n : nat) (b : str) (n' : nat) (b' : str)
  : Prop :=
  started = false
  \/ (n = 0%nat /\ n' = 0%nat /\ b = b')
  \/ (n = 1%nat /\ n' = 1%nat)
  \/ (2 <= n /\ 2 <= n')%nat.

(** A state in which the spaces read so far do not count: nothing visible
    was read yet, or the run holds a newline. *)
Definition at_line_start (started : bool) (n : nat) : Prop :=
  started = false \/ (1 <= n)%nat.

(** The lines after the first do not begin with whitespace. *)
Definition lines_l_after (s : str) : Prop :=
  Forall (fun l => lstripped l = true) (other_lines s).

(** What is left of a normalised text after some of its characters. *)
Definition tidy (u : str) : Prop :=
  nodsp u = true /\ ok2 u = true /\ lines_r u /\ lines_l_after u
  /\ rstripped u = true.

(** The state of the pass after the whitespace [w] of a normalised text. *)
Definition gap_of (n : nat) (b w : str) : Prop :=
  (n = 0%nat /\ b = rev w /\ forallb isspace w = true /\ ~ In LF w)
  \/ (n = 1%nat /\ w = [LF])
  \/ (n = 2%nat /\ w = [LF; LF]).

(** Pages and answers for further runs. *)
Module MoreRuns.
Import Examples.

(** The world in which the HTTP client raises [e]. *)
Definition failing (e : exn) : Externals :=
  world (Raise e) (readable Runs.article_title Runs.article) (Ok None).

(** The world in which readability finds no summary. *)
Definition no_summary_doc : ReadabilityDoc :=
  {| title := Some Runs.article_title; summary := None |}.
Definition no_summary_world : Externals :=
  world (html_page Runs.article) (Ok no_summary_doc) (Ok None).

(** What readability gives for the article. *)
Definition article_doc : ReadabilityDoc :=
  {| title := Some Runs.article_title; summary := Some Runs.article |}.

(** A title of two characters and a summary of five. *)
Definition tiny_title : str := utf8 "Hi".
Definition tiny : str := utf8 "<p>Soon.</p>".
Definition tiny_full : str := utf8 "Hi" ++ [LF; LF] ++ utf8 "Soon.".
Definition tiny_doc : ReadabilityDoc :=
  {| title := Some tiny_title; summary := Some tiny |}.
Definition tiny_world : Externals :=
  world (html_page tiny) (Ok tiny_doc) (Ok None).

(** A summary with a decimal character reference of 5000 digits, and the
    text of the [ValueError] it makes [int] raise. *)
Definition long_reference : str :=
  utf8 "<p>&#" ++ repeat 57%N (Z.to_nat 5000) ++ utf8 ";</p>".
Definition long_reference_message : str :=
  utf8 "Exceeds the limit (4300 digits) for integer string conversion: value has 5000 digits; use sys.set_int_max_str_digits() to increase the limit".
Definition long_reference_doc : ReadabilityDoc :=
  {| title := Some Runs.article_title; summary := Some long_reference |}.
Definition long_reference_world : Externals :=
  world (html_page long_reference) (Ok long_reference_doc) (Ok None).

End MoreRuns.

(** * Properties *)

#[local] Arguments N.eqb : simpl never.
#[local] Arguments isspace : simpl never.
#[local] Arguments rstrip : simpl never.
#[local] Arguments utf8 : simpl never.

(** ** Stripping *)

Lemma lstrip_lstripped s : lstripped (lstrip s) = true.
Proof.
  induction s as [|c s IH]; simpl; auto.
  destruct (isspace c) eqn:Hc; auto. simpl. now rewrite Hc.
Qed.

Lemma lstrip_id s : lstripped s = true -> lstrip s = s.
Proof.
  destruct s as [|c s]; simpl; auto.
  destruct (isspace c); simpl; congruence.
Qed.

Lemma lstrip_app_single a c :
  lstrip (a ++ [c]) =
  match lstrip a with
  | [] => lstrip [c]
  | r => r ++ [c]
  end.
Proof.
  induction a as [|x a IH]; simpl; auto.
  destruct (isspace x); auto.
Qed.

Lemma rstrip_nil : rstrip [] = [].
Proof. reflexivity. Qed.

Lemma rstrip_cons c s :
  rstrip (c :: s) =
  match rstrip s with
  | [] => if isspace c then [] else [c]
  | r => c :: r
  end.
Proof. reflexivity. Qed.

(** [rstrip] is [lstrip] read from the right. *)
Lemma rstrip_rev s : rstrip s = rev (lstrip (rev s)).
Proof.
  induction s as [|c s IH]; auto.
  rewrite rstrip_cons, IH. simpl rev. rewrite lstrip_app_single.
  destruct (lstrip (rev s)) as [|x r] eqn:Hr.
  - simpl. destruct (isspace c); reflexivity.
  - rewrite rev_app_distr. simpl.
    destruct (rev r ++ [x]) eqn:Hx; auto.
    destruct (rev r); discriminate.
Qed.

Lemma rstrip_rstripped s : rstripped (rstrip s) = true.
Proof.
  induction s as [|c s IH]; auto.
  rewrite rstrip_cons. destruct (rstrip s) as [|x r] eqn:Hr.
  - destruct (isspace c) eqn:Hc; simpl; auto. now rewrite Hc.
  - exact IH.
Qed.

Lemma rstrip_id s : rstripped s = true -> rstrip s = s.
Proof.
  induction s as [|c s IH]; auto.
  intros H. rewrite rstrip_cons. destruct s as [|d s].
  - rewrite rstrip_nil. simpl in H. destruct (isspace c); auto; discriminate.
  - rewrite IH by exact H. reflexivity.
Qed.

Lemma rstrip_lstripped s : lstripped s = true -> lstripped (rstrip s) = true.
Proof.
  destruct s as [|c s]; auto. simpl. intros Hc.
  rewrite rstrip_cons. destruct (rstrip s); [|exact Hc].
  destruct (isspace c) eqn:E; [discriminate|]. simpl. now rewrite E.
Qed.

Lemma strip_lstripped s : lstripped (strip s) = true.
Proof. apply rstrip_lstripped, lstrip_lstripped. Qed.

Lemma strip_rstripped s : rstripped (strip s) = true.
Proof. apply rstrip_rstripped. Qed.

Lemma strip_id s : lstripped s = true -> rstripped s = true -> strip s = s.
Proof.
  intros Hl Hr. unfold strip. rewrite (lstrip_id _ Hl). now apply rstrip_id.
Qed.

Lemma strip_idem s : strip (strip s) = strip s.
Proof. apply strip_id; [apply strip_lstripped | apply strip_rstripped]. Qed.

Lemma strip_fixed s : strip s = s -> lstripped s = true /\ rstripped s = true.
Proof.
  intros H. rewrite <- H. split; [apply strip_lstripped | apply strip_rstripped].
Qed.

Lemma lstrip_length s : (length (lstrip s) <= length s)%nat.
Proof.
  induction s as [|c s IH]; simpl; auto.
  destruct (isspace c); simpl; lia.
Qed.

Lemma rstrip_length s : (length (rstrip s) <= length s)%nat.
Proof.
  rewrite rstrip_rev, length_rev.
  etransitivity; [apply lstrip_length | rewrite length_rev; lia].
Qed.

Lemma strip_length s : (len (strip s) <= len s)%Z.
Proof.
  unfold len, strip. pose proof (rstrip_length (lstrip s)).
  pose proof (lstrip_length s). lia.
Qed.

Lemma lstrip_all_space s : forallb isspace s = true -> lstrip s = [].
Proof.
  induction s as [|c s IH]; simpl; auto.
  intros H. apply andb_prop in H as [Hc Hs]. rewrite Hc. auto.
Qed.

Lemma strip_all_space s : forallb isspace s = true -> strip s = [].
Proof. intros H. unfold strip. now rewrite (lstrip_all_space _ H). Qed.

(** ** Substitution *)

Module ReFacts.
Import Re.

Lemma sub_from_skip p repl s k :
  sub_from p repl s k = sub_from p repl (skipn k s) 0.
Proof.
  revert k. induction s as [|c s IH]; intros [|k]; simpl; auto.
Qed.

(** The equation of [sub]: replace the match at the head, or copy one
    character. *)
Lemma sub_cons p repl c s :
  sub p repl (c :: s) =
  match match_here p (c :: s) with
  | Some (S n) => repl ++ sub p repl (skipn n s)
  | _ => c :: sub p repl s
  end.
Proof.
  unfold sub. simpl sub_from at 1.
  destruct (match_here p (c :: s)) as [[|n]|]; auto.
  now rewrite sub_from_skip.
Qed.

Lemma sub_nil p repl : sub p repl [] = [].
Proof. reflexivity. Qed.

(** Induction along the scan of [sub]. *)
Lemma sub_ind p repl (P : str -> str -> Prop) :
  P [] [] ->
  (forall c s, match_here p (c :: s) = None \/ match_here p (c :: s) = Some 0%nat ->
               P s (sub p repl s) -> P (c :: s) (c :: sub p repl s)) ->
  (forall c s n, match_here p (c :: s) = Some (S n) ->
                 P (skipn n s) (sub p repl (skipn n s)) ->
                 P (c :: s) (repl ++ sub p repl (skipn n s))) ->
  forall s, P s (sub p repl s).
Proof.
  intros Hnil Hcopy Hrepl s.
  assert (H : forall n s, (length s <= n)%nat -> P s (sub p repl s)).
  { clear s. induction n as [|n IH]; intros [|c s] Hlen; simpl in Hlen;
      try exact Hnil; try lia.
    rewrite sub_cons. destruct (match_here p (c :: s)) as [[|m]|] eqn:Hm.
    - apply Hcopy; auto. apply IH. lia.
    - apply Hrepl; auto. apply IH.
      rewrite length_skipn. lia.
    - apply Hcopy; auto. apply IH. lia. }
  apply (H (length s)). lia.
Qed.

(** Where the pattern matches nowhere, [sub] changes nothing. *)
Lemma sub_no_match p repl s :
  (forall k, match_here p (skipn k s) = None) -> sub p repl s = s.
Proof.
  induction s as [|c s IH]; intros H; auto.
  rewrite sub_cons. pose proof (H 0%nat) as H0. simpl in H0. rewrite H0.
  f_equal. apply IH. intros k. apply (H (S k)).
Qed.

Lemma search_cons p c s :
  search p (c :: s) =
  match match_here p (c :: s) with
  | Some _ => true
  | None => search p s
  end.
Proof. reflexivity. Qed.

Lemma star_cons cls k c s :
  star cls k (c :: s) =
  if cls c then
    match star cls k s with
    | Some n => Some (S n)
    | None => k (c :: s)
    end
  else k (c :: s).
Proof. reflexivity. Qed.

Lemma star_end cls s : star cls (fun _ => Some 0%nat) s = Some (span cls s).
Proof.
  induction s as [|c s IH]; simpl; auto.
  destruct (cls c); auto. now rewrite IH.
Qed.

Lemma star_ext cls k k' s :
  (forall t, k t = k' t) -> star cls k s = star cls k' s.
Proof.
  intros H. induction s as [|c s IH]; simpl; auto.
  rewrite IH, H. reflexivity.
Qed.

(** [cls+] alone: the whole run of the class. *)
Lemma match_plus cls c s :
  match_here [Plus cls] (c :: s) = if cls c then Some (S (span cls s)) else None.
Proof.
  simpl. destruct (cls c); auto.
  assert (H : star cls (match_here []) s = Some (span cls s)).
  { rewrite <- star_end. apply star_ext. reflexivity. }
  simpl in H. now rewrite H.
Qed.

Lemma span_skipn_hd cls s c t :
  skipn (span cls s) s = c :: t -> cls c = false.
Proof.
  induction s as [|x s IH]; simpl; try discriminate.
  destruct (cls x) eqn:Hx; simpl; auto.
  intros H. injection H as <- _. exact Hx.
Qed.

End ReFacts.
Import ReFacts.

(** ** Lines *)

Lemma split_nonempty sep s : split sep s <> [].
Proof.
  destruct s as [|c s]; simpl; try discriminate.
  destruct (c =? sep)%N; try discriminate.
  destruct (split sep s); discriminate.
Qed.

Lemma split_cons sep c s :
  split sep (c :: s) =
  if (c =? sep)%N then [] :: split sep s
  else (c :: hd [] (split sep s)) :: tl (split sep s).
Proof.
  simpl. destruct (c =? sep)%N; auto.
  pose proof (split_nonempty sep s).
  destruct (split sep s); [now elim H | reflexivity].
Qed.

Lemma split_hd_tl sep s : split sep s = hd [] (split sep s) :: tl (split sep s).
Proof.
  pose proof (split_nonempty sep s).
  destruct (split sep s); [now elim H | reflexivity].
Qed.

Lemma join_cons sep p q ps :
  join sep (p :: q :: ps) = p ++ sep ++ join sep (q :: ps).
Proof. reflexivity. Qed.

Lemma join_split sep s : join [sep] (split sep s) = s.
Proof.
  induction s as [|c s IH]; auto.
  pose proof (split_nonempty sep s) as Hne. simpl split.
  destruct (split sep s) as [|l ls]; [now elim Hne|].
  destruct (N.eqb_spec c sep) as [->|Hc].
  - rewrite join_cons, IH. reflexivity.
  - destruct ls as [|q ps].
    + simpl in *. now rewrite IH.
    + rewrite join_cons. rewrite join_cons in IH. rewrite <- IH. reflexivity.
Qed.

Lemma split_no_sep sep s : Forall (fun l => ~ In sep l) (split sep s).
Proof.
  induction s as [|c s IH]; simpl.
  - constructor; auto.
  - destruct (N.eqb_spec c sep) as [->|Hc].
    + constructor; auto.
    + destruct (split sep s) as [|l ls].
      * constructor; auto. simpl. intuition.
      * inversion IH; subst. constructor; auto. simpl. intuition.
Qed.

Lemma split_app_sep sep p r :
  ~ In sep p -> split sep (p ++ sep :: r) = p :: split sep r.
Proof.
  induction p as [|c p IH]; intros Hp; simpl.
  - now rewrite N.eqb_refl.
  - destruct (N.eqb_spec c sep) as [->|Hc].
    + exfalso. apply Hp. now left.
    + rewrite IH; auto. intros H. apply Hp. now right.
Qed.

Lemma split_no_sep_id sep p : ~ In sep p -> split sep p = [p].
Proof.
  induction p as [|c p IH]; intros Hp; simpl; auto.
  destruct (N.eqb_spec c sep) as [->|Hc].
  - exfalso. apply Hp. now left.
  - rewrite IH; auto. intros H. apply Hp. now right.
Qed.

Lemma split_join sep ls :
  ls <> [] -> Forall (fun l => ~ In sep l) ls -> split sep (join [sep] ls) = ls.
Proof.
  induction ls as [|p ps IH]; intros Hne Hall; try congruence.
  inversion Hall as [|? ? Hp Hps]; subst.
  destruct ps as [|q ps].
  - simpl. now apply split_no_sep_id.
  - rewrite join_cons.
    change (p ++ [sep] ++ join [sep] (q :: ps))
      with (p ++ sep :: join [sep] (q :: ps)).
    rewrite split_app_sep by auto.
    rewrite IH; auto. discriminate.
Qed.

Lemma lstrip_In x s : In x (lstrip s) -> In x s.
Proof.
  induction s as [|c s IH]; simpl; auto.
  destruct (isspace c); simpl; auto.
Qed.

Lemma rstrip_In x s : In x (rstrip s) -> In x s.
Proof.
  rewrite rstrip_rev. intros H. apply in_rev in H. apply lstrip_In in H.
  now apply in_rev.
Qed.

Lemma strip_In x s : In x (strip s) -> In x s.
Proof. intros H. now apply lstrip_In, rstrip_In. Qed.

(** [rstrip] keeps a prefix and [lstrip] a suffix. *)
Lemma rstrip_prefix s : exists w, s = rstrip s ++ w.
Proof.
  induction s as [|c s [w IH]].
  - now exists [].
  - rewrite rstrip_cons. destruct (rstrip s) as [|x r].
    + destruct (isspace c).
      * now exists (c :: s).
      * exists s. reflexivity.
    + exists w. simpl. now rewrite IH at 1.
Qed.

Lemma lines_cons c s :
  split LF (c :: s) =
  if is_LF c then [] :: first_line s :: other_lines s
  else (c :: first_line s) :: other_lines s.
Proof.
  rewrite split_cons. unfold is_LF, first_line, other_lines.
  rewrite N.eqb_sym. destruct (LF =? c)%N; auto.
  now rewrite <- split_hd_tl.
Qed.

Lemma isspace_LF c : is_LF c = true -> isspace c = true.
Proof. unfold is_LF. intros H. apply N.eqb_eq in H. now subst. Qed.

Lemma rstripped_tail c l : rstripped (c :: l) = true -> rstripped l = true.
Proof. destruct l; auto. Qed.

Lemma lines_r_tail c s : lines_r (c :: s) -> lines_r s.
Proof.
  unfold lines_r. rewrite lines_cons, (split_hd_tl LF s).
  fold (first_line s) (other_lines s).
  destruct (is_LF c); intros H; inversion H; subst; auto.
  constructor; auto. eapply rstripped_tail; eauto.
Qed.

Lemma lines_l_lstrip s : lines_l s -> lines_l (lstrip s).
Proof.
  induction s as [|c s IH]; auto. simpl.
  destruct (isspace c) eqn:Hc; auto.
  intros H. apply IH. revert H. unfold lines_l.
  rewrite lines_cons, (split_hd_tl LF s). fold (first_line s) (other_lines s).
  destruct (is_LF c); intros H; inversion H; subst; auto.
  simpl in *. rewrite Hc in *. discriminate.
Qed.

Lemma lines_r_lstrip s : lines_r s -> lines_r (lstrip s).
Proof.
  induction s as [|c s IH]; auto. simpl.
  destruct (isspace c) eqn:Hc; auto.
  intros H. apply IH. eapply lines_r_tail; eauto.
Qed.

Lemma rstrip_hd x r s : rstrip s = x :: r -> exists s', s = x :: s'.
Proof.
  destruct s as [|c s]; try discriminate.
  rewrite rstrip_cons. destruct (rstrip s).
  - destruct (isspace c); try discriminate. intros H. injection H as <- _. eauto.
  - intros H. injection H as <- _. eauto.
Qed.

Lemma first_line_nil_LF x s : first_line (x :: s) = [] -> is_LF x = true.
Proof.
  unfold first_line. rewrite lines_cons. destruct (is_LF x); simpl; congruence.
Qed.

Lemma lines_r_rstrip s : lines_r s -> lines_r (rstrip s).
Proof.
  induction s as [|c s IH]; auto.
  intros H. pose proof (IH (lines_r_tail H)) as IHr.
  rewrite rstrip_cons. destruct (rstrip s) as [|x r] eqn:Hr.
  - destruct (isspace c) eqn:Hc.
    + repeat constructor.
    + unfold lines_r. rewrite lines_cons.
      destruct (is_LF c) eqn:HL.
      * apply isspace_LF in HL. congruence.
      * repeat constructor. simpl. now rewrite Hc.
  - unfold lines_r in *. rewrite lines_cons.
    rewrite (split_hd_tl LF (x :: r)) in IHr.
    fold (first_line (x :: r)) (other_lines (x :: r)) in IHr.
    inversion IHr as [|? ? Hf Ho]; subst.
    destruct (is_LF c) eqn:HL.
    + repeat constructor; auto.
    + constructor; auto.
      destruct (first_line (x :: r)) as [|d l] eqn:Hfl; [|exact Hf].
      apply first_line_nil_LF in Hfl.
      destruct (rstrip_hd _ Hr) as [s' ->].
      rewrite lines_cons, HL in H. inversion H as [|? ? Hc _]; subst.
      unfold first_line in Hc. rewrite lines_cons, Hfl in Hc. exact Hc.
Qed.

Lemma first_line_app a w :
  lstripped (first_line (a ++ w)) = true -> lstripped (first_line a) = true.
Proof.
  destruct a as [|c a]; auto. simpl app. unfold first_line.
  rewrite !lines_cons. destruct (is_LF c); auto.
Qed.

Lemma other_lines_app a w :
  Forall (fun l => lstripped l = true) (other_lines (a ++ w)) ->
  Forall (fun l => lstripped l = true) (other_lines a).
Proof.
  induction a as [|c a IH]; simpl app.
  - intros _. constructor.
  - unfold other_lines in *. rewrite !lines_cons.
    destruct (is_LF c); simpl; auto.
    intros H. inversion H; subst. constructor; auto.
    eapply first_line_app; eauto.
Qed.

Lemma lines_l_prefix a w : lines_l (a ++ w) -> lines_l a.
Proof.
  unfold lines_l. rewrite (split_hd_tl LF (a ++ w)), (split_hd_tl LF a).
  intros H. inversion H; subst. constructor.
  - eapply first_line_app; eauto.
  - eapply other_lines_app; eauto.
Qed.

Lemma lines_l_rstrip s : lines_l s -> lines_l (rstrip s).
Proof.
  destruct (rstrip_prefix s) as [w Hw]. intros H. rewrite Hw in H.
  eapply lines_l_prefix; eauto.
Qed.

(** A text whose lines are stripped is a fixed point of the line pass. *)
Lemma strip_lines_id s :
  lines_l s -> lines_r s -> join [LF] (map strip (split LF s)) = s.
Proof.
  intros Hl Hr. rewrite <- (join_split LF s) at 2. f_equal.
  unfold lines_l, lines_r in *.
  induction (split LF s) as [|l ls IH]; auto.
  inversion Hl; inversion Hr; subst. simpl. f_equal; auto.
  now apply strip_id.
Qed.

(** The line pass leaves every line stripped. *)
Lemma strip_lines_lines s :
  split LF (join [LF] (map strip (split LF s))) = map strip (split LF s).
Proof.
  apply split_join.
  - pose proof (split_nonempty LF s). destruct (split LF s); simpl; congruence.
  - pose proof (split_no_sep LF s) as H.
    induction H; simpl; constructor; auto.
    intros Hin. apply strip_In in Hin. auto.
Qed.

Lemma strip_lines_l s : lines_l (join [LF] (map strip (split LF s))).
Proof.
  unfold lines_l. rewrite strip_lines_lines.
  induction (split LF s); simpl; constructor; auto. apply strip_lstripped.
Qed.

Lemma strip_lines_r s : lines_r (join [LF] (map strip (split LF s))).
Proof.
  unfold lines_r. rewrite strip_lines_lines.
  induction (split LF s); simpl; constructor; auto. apply strip_rstripped.
Qed.

(** ** Runs of spaces *)

Lemma nodsp_contains s : contains [SP; SP] s = negb (nodsp s).
Proof.
  induction s as [|a s IH]; auto.
  destruct s as [|b s].
  { simpl. now rewrite andb_false_r. }
  change (contains [SP; SP] (a :: b :: s))
    with (startswith [SP; SP] (a :: b :: s) || contains [SP; SP] (b :: s)).
  rewrite IH.
  change (nodsp (a :: b :: s))
    with (negb ((a =? SP)%N && (b =? SP)%N) && nodsp (b :: s)).
  simpl startswith. rewrite (N.eqb_sym SP a), (N.eqb_sym SP b).
  destruct (a =? SP)%N, (b =? SP)%N, (nodsp (b :: s)); reflexivity.
Qed.

Lemma nodsp_tail c s : nodsp (c :: s) = true -> nodsp s = true.
Proof.
  destruct s as [|b s]; auto. simpl. intros H.
  apply andb_prop in H. tauto.
Qed.

Lemma nodsp_skipn n s : nodsp s = true -> nodsp (skipn n s) = true.
Proof.
  revert s. induction n as [|n IH]; intros [|c s] H; auto.
  simpl. apply IH. eapply nodsp_tail; eauto.
Qed.

Lemma nodsp_cons c s :
  nodsp (c :: s) =
  match s with
  | [] => true
  | b :: _ => negb ((c =? SP)%N && (b =? SP)%N) && nodsp s
  end.
Proof. reflexivity. Qed.

(** A character before a string that keeps its head. *)
Lemma nodsp_cons_hd c s s' :
  hd_error s' = hd_error s -> nodsp (c :: s) = true -> nodsp s' = true ->
  nodsp (c :: s') = true.
Proof.
  rewrite !nodsp_cons. destruct s' as [|b' t']; auto.
  destruct s as [|b t]; simpl; try discriminate.
  intros H. injection H as ->. intros H1 H2.
  apply andb_prop in H1 as [H1 _]. rewrite H1. exact H2.
Qed.

Lemma nodsp_app_LF a b : nodsp (a ++ LF :: b) = nodsp a && nodsp b.
Proof.
  induction a as [|x a IH].
  - simpl app. rewrite nodsp_cons. destruct b; auto.
  - simpl app. rewrite nodsp_cons.
    destruct a as [|y a].
    + simpl app in *. rewrite IH.
      change (LF =? SP)%N with false. now rewrite andb_false_r.
    + simpl app in *. rewrite IH. rewrite (nodsp_cons x (y :: a)).
      now rewrite andb_assoc.
Qed.

Lemma nodsp_join ls : nodsp (join [LF] ls) = forallb nodsp ls.
Proof.
  induction ls as [|p ps IH]; auto.
  destruct ps as [|q ps].
  - simpl. now rewrite andb_true_r.
  - rewrite join_cons.
    change (p ++ [LF] ++ join [LF] (q :: ps)) with (p ++ LF :: join [LF] (q :: ps)).
    rewrite nodsp_app_LF, IH. reflexivity.
Qed.

Lemma nodsp_lstrip s : nodsp s = true -> nodsp (lstrip s) = true.
Proof.
  induction s as [|c s IH]; auto. simpl lstrip.
  destruct (isspace c); auto. intros H. apply IH. eapply nodsp_tail; eauto.
Qed.

Lemma nodsp_rstrip s : nodsp s = true -> nodsp (rstrip s) = true.
Proof.
  induction s as [|c s IH]; auto. intros H.
  rewrite rstrip_cons. destruct (rstrip s) as [|x r] eqn:Hr.
  - destruct (isspace c); auto.
  - apply nodsp_cons_hd with (s := s); auto.
    + destruct (rstrip_hd _ Hr) as [s' ->]. reflexivity.
    + apply IH. eapply nodsp_tail; eauto.
Qed.

Lemma nodsp_strip s : nodsp s = true -> nodsp (strip s) = true.
Proof. intros H. now apply nodsp_rstrip, nodsp_lstrip. Qed.

Lemma nodsp_strip_lines s :
  nodsp s = true -> nodsp (join [LF] (map strip (split LF s))) = true.
Proof.
  intros H. rewrite <- (join_split LF s), nodsp_join in H.
  rewrite nodsp_join. induction (split LF s) as [|l ls IH]; auto.
  simpl in *. apply andb_prop in H as [Hl Hls].
  rewrite nodsp_strip; auto.
Qed.

(** ** Deleting whitespace *)

Lemma wsdel_refl s : wsdel s s.
Proof. induction s; auto. Qed.

Lemma wsdel_app a a' b b' : wsdel a a' -> wsdel b b' -> wsdel (a ++ b) (a' ++ b').
Proof. induction 1; simpl; auto. Qed.

Lemma wsdel_trans a b c : wsdel a b -> wsdel b c -> wsdel a c.
Proof.
  intros H. revert c. induction H; intros c' Hc; auto.
  inversion Hc; subst; auto.
Qed.

Lemma wsdel_lstrip s : wsdel s (lstrip s).
Proof.
  induction s as [|c s IH]; simpl; auto.
  destruct (isspace c) eqn:Hc; auto. apply wsdel_refl.
Qed.

Lemma wsdel_all_space s : forallb isspace s = true -> wsdel s [].
Proof.
  induction s as [|c s IH]; simpl; auto.
  intros H. apply andb_prop in H as [Hc Hs]. auto.
Qed.

Lemma wsdel_rstrip s : wsdel s (rstrip s).
Proof.
  induction s as [|c s IH]; auto.
  rewrite rstrip_cons. destruct (rstrip s) as [|x r]; auto.
  destruct (isspace c) eqn:Hc; auto.
Qed.

Lemma wsdel_strip s : wsdel s (strip s).
Proof. eapply wsdel_trans; [apply wsdel_lstrip | apply wsdel_rstrip]. Qed.

Lemma wsdel_join ls : wsdel (join [LF] ls) (join [LF] (map strip ls)).
Proof.
  induction ls as [|p ps IH]; auto.
  destruct ps as [|q ps].
  - simpl. apply wsdel_strip.
  - change (map strip (p :: q :: ps)) with (strip p :: strip q :: map strip ps).
    rewrite !join_cons. apply wsdel_app; [apply wsdel_strip|].
    apply wsdel_app; [apply wsdel_refl | exact IH].
Qed.

Lemma wsdel_strip_lines s : wsdel s (join [LF] (map strip (split LF s))).
Proof. rewrite <- (join_split LF s) at 1. apply wsdel_join. Qed.

(** ** Blank lines *)

Lemma wsdel_wsnl s t : wsdel s t -> (wsnl t <= wsnl s)%nat.
Proof.
  induction 1; simpl; auto.
  - destruct (isspace c); lia.
  - rewrite H. lia.
Qed.

Lemma wsdel_ok2 s t : wsdel s t -> ok2 s = true -> ok2 t = true.
Proof.
  induction 1 as [|c s t H IH|c s t Hc H IH]; auto.
  - intros Hs. change (ok2 (c :: s)) with ((wsnl (c :: s) <=? 2)%nat && ok2 s) in Hs.
    change (ok2 (c :: t)) with ((wsnl (c :: t) <=? 2)%nat && ok2 t).
    apply andb_prop in Hs as [H1 H2]. rewrite IH by auto.
    pose proof (wsdel_wsnl (wsdel_keep c H)).
    apply Nat.leb_le in H1. rewrite andb_true_r. apply Nat.leb_le. lia.
  - intros Hs. change (ok2 (c :: s)) with ((wsnl (c :: s) <=? 2)%nat && ok2 s) in Hs.
    apply andb_prop in Hs as [_ H2]. auto.
Qed.

Lemma ok2_wsnl s : ok2 s = true -> (wsnl s <= 2)%nat.
Proof.
  destruct s as [|c s]; simpl wsnl; [lia|].
  intros H. change (ok2 (c :: s)) with ((wsnl (c :: s) <=? 2)%nat && ok2 s) in H.
  apply andb_prop in H as [H _]. now apply Nat.leb_le in H.
Qed.

Lemma ok2_skipn n s : ok2 s = true -> ok2 (skipn n s) = true.
Proof.
  revert s. induction n as [|n IH]; intros [|c s] H; auto.
  simpl skipn. apply IH.
  change (ok2 (c :: s)) with ((wsnl (c :: s) <=? 2)%nat && ok2 s) in H.
  apply andb_prop in H. tauto.
Qed.

Lemma ok2_no_triple s : ok2 s = true -> contains [LF; LF; LF] s = false.
Proof.
  induction s as [|c s IH]; auto. intros H.
  pose proof (ok2_wsnl _ H) as Hw.
  change (ok2 (c :: s)) with ((wsnl (c :: s) <=? 2)%nat && ok2 s) in H.
  apply andb_prop in H as [_ H].
  change (contains [LF; LF; LF] (c :: s))
    with (startswith [LF; LF; LF] (c :: s) || contains [LF; LF; LF] s).
  rewrite IH by auto. rewrite orb_false_r.
  destruct (startswith [LF; LF; LF] (c :: s)) eqn:Hs; auto.
  exfalso. destruct s as [|d [|e s]]; simpl in Hs;
    try (rewrite ?andb_false_r in Hs; discriminate).
  apply andb_prop in Hs as [H1 Hs]. apply andb_prop in Hs as [H2 Hs].
  apply andb_prop in Hs as [H3 _].
  apply N.eqb_eq in H1, H2, H3. subst. simpl in Hw. lia.
Qed.

(** ** The three patterns of [_clean_whitespace] and [_remove_html_tags] *)

Section Patterns.
Import Re.

(** [' +'] replaced by one space keeps the head of the text and leaves no two
    spaces in a row. *)
Lemma sub_spaces_spec s :
  hd_error (sub re_spaces [SP] s) = hd_error s
  /\ nodsp (sub re_spaces [SP] s) = true.
Proof.
  apply (sub_ind re_spaces [SP]
           (fun s t => hd_error t = hd_error s /\ nodsp t = true)); auto.
  - intros c t Hm [Hh Hn]. split; auto.
    unfold re_spaces in Hm. rewrite match_plus in Hm.
    destruct (SP =? c)%N eqn:Hc; [destruct Hm; discriminate|].
    rewrite nodsp_cons. destruct (sub re_spaces [SP] t); auto.
    rewrite N.eqb_sym, Hc. exact Hn.
  - intros c t n Hm [Hh Hn]. unfold re_spaces in Hm. rewrite match_plus in Hm.
    destruct (SP =? c)%N eqn:Hc; [|discriminate].
    apply N.eqb_eq in Hc. subst c. injection Hm as <-.
    split; auto. simpl app. rewrite nodsp_cons.
    destruct (sub re_spaces [SP] (skipn (span (N.eqb SP) t) t)) as [|b r] eqn:Hs; auto.
    apply andb_true_intro. split; [|exact Hn].
    destruct (skipn (span (N.eqb SP) t) t) as [|b' r'] eqn:Hk; [discriminate|].
    injection Hh as ->. apply span_skipn_hd in Hk.
    rewrite (N.eqb_sym b' SP), Hk. now rewrite andb_false_r.
Qed.

Lemma lastnl_wsnl s : lastnl s = 0%nat <-> wsnl s = 0%nat.
Proof.
  induction s as [|c s IH]; simpl; [tauto|].
  destruct (isspace c); [|tauto].
  destruct (lastnl s), (is_LF c); split; intros H; lia.
Qed.

Lemma lastnl_span s : lastnl s = 0%nat -> span (N.eqb LF) s = 0%nat.
Proof.
  destruct s as [|c s]; auto. simpl. fold (is_LF c).
  destruct (is_LF c) eqn:HL; auto.
  rewrite (isspace_LF _ HL). destruct (lastnl s); discriminate.
Qed.

Lemma wsnl_skip_lastnl s : wsnl (skipn (lastnl s) s) = 0%nat.
Proof.
  induction s as [|c s IH]; auto. simpl lastnl.
  destruct (isspace c) eqn:Hc.
  - destruct (lastnl s) eqn:Hl.
    + apply lastnl_wsnl in Hl. destruct (is_LF c) eqn:HL; simpl; auto.
      rewrite Hc, HL. auto.
    + exact IH.
  - simpl. now rewrite Hc.
Qed.

Lemma not_space_not_LF c : isspace c = false -> is_LF c = false.
Proof.
  intros H. destruct (is_LF c) eqn:HL; auto.
  apply isspace_LF in HL. congruence.
Qed.

(** [\s*\n+] *)
Lemma match_ws_nl s :
  star isspace (match_here [Plus (N.eqb LF)]) s =
  if (lastnl s =? 0)%nat then None else Some (lastnl s).
Proof.
  induction s as [|c s IH]; auto.
  rewrite star_cons, IH, match_plus. fold (is_LF c). simpl lastnl.
  destruct (isspace c) eqn:Hc.
  - destruct (lastnl s) eqn:Hl; simpl; auto.
    destruct (is_LF c); auto. now rewrite (lastnl_span _ Hl).
  - now rewrite (not_space_not_LF _ Hc).
Qed.

(** [\n\s*\n+] *)
Lemma match_nl_ws_nl c s :
  match_here [One (N.eqb LF); Star isspace; Plus (N.eqb LF)] (c :: s) =
  if is_LF c then
    if (lastnl s =? 0)%nat then None else Some (S (lastnl s))
  else None.
Proof.
  change (match_here [One (N.eqb LF); Star isspace; Plus (N.eqb LF)] (c :: s))
    with (if is_LF c
          then option_map S (star isspace (match_here [Plus (N.eqb LF)]) s)
          else None).
  rewrite match_ws_nl. destruct (is_LF c); auto.
  destruct (lastnl s =? 0)%nat; auto.
Qed.

(** [\s*\n\s*\n+] *)
Lemma match_ws_nl_ws_nl s :
  star isspace (match_here [One (N.eqb LF); Star isspace; Plus (N.eqb LF)]) s =
  if (2 <=? wsnl s)%nat then Some (lastnl s) else None.
Proof.
  induction s as [|c s IH]; auto.
  rewrite star_cons, IH, match_nl_ws_nl. simpl lastnl. simpl wsnl.
  destruct (isspace c) eqn:Hc.
  - destruct (Nat.leb_spec 2 (wsnl s)) as [Hw|Hw].
    + destruct (lastnl s) eqn:Hl.
      * apply lastnl_wsnl in Hl. lia.
      * destruct (Nat.leb_spec 2 ((if is_LF c then 1 else 0) + wsnl s)); auto.
        destruct (is_LF c); lia.
    + destruct (is_LF c) eqn:HL.
      * destruct (lastnl s) eqn:Hl.
        -- apply lastnl_wsnl in Hl. rewrite Hl. reflexivity.
        -- change (S n =? 0)%nat with false. cbv iota.
           destruct (Nat.leb_spec 2 (1 + wsnl s)); auto.
           assert (wsnl s = 0)%nat as Hz by lia.
           apply lastnl_wsnl in Hz. congruence.
      * destruct (Nat.leb_spec 2 (0 + wsnl s)); auto. lia.
  - now rewrite (not_space_not_LF _ Hc).
Qed.

(** [\n\s*\n\s*\n+] matches at a newline with two more newlines in the
    whitespace after it, up to the last of them. *)
Lemma match_blank_lines c s :
  match_here re_blank_lines (c :: s) =
  if is_LF c && (2 <=? wsnl s)%nat then Some (S (lastnl s)) else None.
Proof.
  change (match_here re_blank_lines (c :: s))
    with (if is_LF c
          then option_map S
                 (star isspace
                    (match_here [One (N.eqb LF); Star isspace; Plus (N.eqb LF)]) s)
          else None).
  rewrite match_ws_nl_ws_nl. destruct (is_LF c); auto.
  destruct (2 <=? wsnl s)%nat; auto.
Qed.

(** The blank-line pass keeps the head of the text, creates no double space
    and leaves at most two newlines in every run of whitespace. *)
Lemma sub_blank_lines_spec s :
  hd_error (sub re_blank_lines [LF; LF] s) = hd_error s
  /\ (nodsp s = true -> nodsp (sub re_blank_lines [LF; LF] s) = true)
  /\ wsnl (sub re_blank_lines [LF; LF] s) = Nat.min (wsnl s) 2
  /\ ok2 (sub re_blank_lines [LF; LF] s) = true.
Proof.
  apply (sub_ind re_blank_lines [LF; LF]
           (fun s t => hd_error t = hd_error s
                       /\ (nodsp s = true -> nodsp t = true)
                       /\ wsnl t = Nat.min (wsnl s) 2
                       /\ ok2 t = true)).
  - repeat split; auto.
  - intros c t Hm (Hh & Hn & Hw & Ho). rewrite match_blank_lines in Hm.
    assert (Hc : is_LF c && (2 <=? wsnl t)%nat = false).
    { destruct (is_LF c && (2 <=? wsnl t)%nat); auto. destruct Hm; discriminate. }
    assert (Hw' : wsnl (c :: sub re_blank_lines [LF; LF] t)
                  = Nat.min (wsnl (c :: t)) 2).
    { simpl wsnl. destruct (isspace c); auto. rewrite Hw.
      destruct (is_LF c); [|lia].
      destruct (Nat.leb_spec 2 (wsnl t)); [discriminate | lia]. }
    repeat split; auto.
    + intros H. apply nodsp_cons_hd with (s := t); auto.
      apply Hn. eapply nodsp_tail; eauto.
    + change (ok2 (c :: sub re_blank_lines [LF; LF] t))
        with ((wsnl (c :: sub re_blank_lines [LF; LF] t) <=? 2)%nat
              && ok2 (sub re_blank_lines [LF; LF] t)).
      rewrite Ho, Hw', andb_true_r. apply Nat.leb_le. lia.
  - intros c t n Hm (Hh & Hn & Hw & Ho). rewrite match_blank_lines in Hm.
    destruct (is_LF c) eqn:HL; [|discriminate].
    destruct (Nat.leb_spec 2 (wsnl t)) as [H2|H2]; [|discriminate].
    simpl in Hm. injection Hm as <-.
    apply N.eqb_eq in HL. subst c.
    rewrite wsnl_skip_lastnl in Hw. simpl in Hw.
    set (r := sub re_blank_lines [LF; LF] (skipn (lastnl t) t)) in *.
    assert (Hw2 : wsnl (LF :: LF :: r) = 2%nat) by (simpl; lia).
    assert (Hw1 : wsnl (LF :: r) = 1%nat) by (simpl; lia).
    repeat split; auto.
    + intros H. simpl app. rewrite !nodsp_cons.
      destruct r as [|b r'] eqn:Hr; auto.
      change (LF =? SP)%N with false. simpl.
      apply Hn. apply nodsp_skipn. eapply nodsp_tail; eauto.
    + simpl app. rewrite Hw2. simpl wsnl. lia.
    + simpl app.
      change (ok2 (LF :: LF :: r))
        with ((wsnl (LF :: LF :: r) <=? 2)%nat
              && ((wsnl (LF :: r) <=? 2)%nat && ok2 r)).
      rewrite Hw2, Hw1, Ho. reflexivity.
Qed.

(** Where every run of whitespace holds at most two newlines the pattern
    matches nowhere. *)
Lemma ok2_no_match s k :
  ok2 s = true -> match_here re_blank_lines (skipn k s) = None.
Proof.
  intros H. apply (ok2_skipn k) in H.
  destruct (skipn k s) as [|c t]; auto.
  rewrite match_blank_lines. apply ok2_wsnl in H. simpl in H.
  destruct (is_LF c) eqn:HL; auto. rewrite (isspace_LF _ HL) in H.
  destruct (Nat.leb_spec 2 (wsnl t)); auto. lia.
Qed.

Lemma not_gt_is_gt c : not_gt c = negb (is_gt c).
Proof. unfold not_gt, is_gt. now rewrite N.eqb_sym. Qed.

Lemma match_to_gt s :
  star not_gt (match_here [One (N.eqb 62)]) s =
  if existsb is_gt s then Some (S (span not_gt s)) else None.
Proof.
  induction s as [|c s IH]; auto.
  rewrite star_cons, IH. simpl existsb. simpl span.
  rewrite not_gt_is_gt.
  change (match_here [One (N.eqb 62)] (c :: s))
    with (if is_gt c then Some 1%nat else None).
  destruct (is_gt c); simpl; auto.
  destruct (existsb is_gt s); auto.
Qed.

Lemma match_tag s :
  match_here re_tag s =
  if tag_at s then Some (3 + span not_gt (tl (tl s)))%nat else None.
Proof.
  destruct s as [|c [|d s]]; auto.
  - simpl. destruct (60 =? c)%N; auto.
  - change (match_here re_tag (c :: d :: s))
      with (if (60 =? c)%N
            then option_map S
                   (if not_gt d
                    then option_map S (star not_gt (match_here [One (N.eqb 62)]) s)
                    else None)
            else None).
    rewrite match_to_gt. unfold tag_at.
    destruct (60 =? c)%N; auto. destruct (not_gt d); auto.
    simpl. destruct (existsb is_gt s); auto.
Qed.

(** The tag pass leaves no text that the tag pattern matches. *)
Lemma sub_tag_spec s :
  search re_tag (sub re_tag [] s) = false
  /\ (existsb is_gt (sub re_tag [] s) = true -> existsb is_gt s = true)
  /\ (forall t, s = 62%N :: t -> exists t', sub re_tag [] s = 62%N :: t').
Proof.
  apply (sub_ind re_tag []
           (fun s r => search re_tag r = false
                       /\ (existsb is_gt r = true -> existsb is_gt s = true)
                       /\ (forall t, s = 62%N :: t -> exists t', r = 62%N :: t'))).
  - repeat split; auto. intros t H. discriminate.
  - intros c t Hm (Hs & Hg & Hh). rewrite match_tag in Hm.
    assert (Hc : tag_at (c :: t) = false).
    { destruct (tag_at (c :: t)); auto. destruct Hm; discriminate. }
    repeat split.
    + rewrite search_cons, Hs, match_tag.
      destruct (tag_at (c :: sub re_tag [] t)) eqn:Ht; auto.
      exfalso. unfold tag_at in Ht, Hc.
      destruct (sub re_tag [] t) as [|d r] eqn:Hr; [discriminate|].
      apply andb_prop in Ht as [Ht Hex]. apply andb_prop in Ht as [Hlt Hd].
      rewrite Hlt in Hc.
      assert (Hgt : existsb is_gt t = true).
      { apply Hg. simpl. rewrite Hex. apply orb_true_r. }
      destruct t as [|d' t']; [discriminate|].
      simpl in Hgt. simpl in Hc.
      destruct (is_gt d') eqn:Hd'.
      * unfold is_gt in Hd'. apply N.eqb_eq in Hd'. subst d'.
        destruct (Hh t' eq_refl) as [r' Hr']. injection Hr' as -> _.
        discriminate.
      * rewrite not_gt_is_gt, Hd' in Hc. simpl in Hgt, Hc. congruence.
    + simpl existsb. intros H. apply orb_prop in H as [H|H].
      * now rewrite H.
      * rewrite (Hg H). apply orb_true_r.
    + intros t0 H. injection H as -> ->. eauto.
  - intros c t n Hm (Hs & Hg & Hh). rewrite match_tag in Hm.
    destruct (tag_at (c :: t)) eqn:Ht; [|discriminate].
    simpl app. repeat split; auto.
    + intros H. apply Hg in H. simpl.
      assert (Hsk : forall k (u : str), existsb is_gt (skipn k u) = true ->
                                         existsb is_gt u = true).
      { induction k as [|k IHk]; intros [|x u] Hx; auto. simpl in *.
        rewrite (IHk u Hx). apply orb_true_r. }
      rewrite (Hsk _ _ H). apply orb_true_r.
    + intros t0 H. injection H as -> ->. unfold tag_at in Ht.
      destruct t0 as [|d t0]; discriminate.
Qed.

(** [[\n\r\t]+] replaced by nothing deletes these characters. *)
Lemma sub_newlines_filter s :
  sub re_newlines [] s = filter (fun c => negb (is_nrt c)) s.
Proof.
  apply (sub_ind re_newlines []
           (fun s r => r = filter (fun c => negb (is_nrt c)) s)); auto.
  - intros c t Hm IH. unfold re_newlines in Hm. rewrite match_plus in Hm.
    simpl. rewrite <- IH.
    destruct (is_nrt c); auto. destruct Hm; discriminate.
  - intros c t n Hm IH. unfold re_newlines in Hm. rewrite match_plus in Hm.
    destruct (is_nrt c) eqn:Hc; [|discriminate].
    injection Hm as <-. simpl. rewrite Hc. simpl. rewrite IH.
    clear. induction t as [|x t IHt]; auto. simpl.
    destruct (is_nrt x) eqn:Hx; simpl; rewrite ?Hx; auto.
Qed.

End Patterns.

(** ** [_clean_whitespace] *)

Lemma clean_whitespace_normalized s : normalized (_clean_whitespace s).
Proof.
  unfold _clean_whitespace.
  set (s1 := Re.sub re_spaces [SP] s).
  set (s2 := Re.sub re_blank_lines [LF; LF] s1).
  set (s3 := join [LF] (map strip (split LF s2))).
  assert (Hn2 : nodsp s2 = true).
  { apply (sub_blank_lines_spec s1). apply (sub_spaces_spec s). }
  assert (Ho2 : ok2 s2 = true) by apply (sub_blank_lines_spec s1).
  constructor.
  - apply strip_lstripped.
  - apply strip_rstripped.
  - apply nodsp_strip, nodsp_strip_lines, Hn2.
  - apply (wsdel_ok2 (wsdel_strip s3)).
    apply (wsdel_ok2 (wsdel_strip_lines s2)), Ho2.
  - apply lines_l_rstrip, lines_l_lstrip, strip_lines_l.
  - apply lines_r_rstrip, lines_r_lstrip, strip_lines_r.
Qed.

Lemma normalized_fixed s : normalized s -> _clean_whitespace s = s.
Proof.
  intros [Hl Hr Hn Ho Hll Hlr]. unfold _clean_whitespace.
  assert (H1 : Re.sub re_spaces [SP] s = s).
  { clear - Hn. induction s as [|c s IH]; auto.
    rewrite sub_cons. unfold re_spaces. rewrite match_plus.
    pose proof (nodsp_tail _ _ Hn) as Ht.
    destruct (SP =? c)%N eqn:Hc.
    - apply N.eqb_eq in Hc. subst c.
      destruct s as [|b s]; auto.
      rewrite nodsp_cons in Hn. apply andb_prop in Hn as [Hb _].
      change (SP =? SP)%N with true in Hb. simpl in Hb.
      simpl span. rewrite N.eqb_sym.
      destruct (b =? SP)%N; [discriminate|].
      simpl. f_equal. now apply IH.
    - f_equal. now apply IH. }
  rewrite H1.
  rewrite (sub_no_match re_blank_lines [LF; LF] s)
    by (intros k; now apply ok2_no_match).
  rewrite strip_lines_id by assumption.
  now apply strip_id.
Qed.

(** ** The pipeline *)

Lemma str_eqb_eq a b : str_eqb a b = true <-> a = b.
Proof.
  revert b. induction a as [|x a IH]; intros [|y b]; simpl; split;
    try discriminate; auto.
  - intros H. apply andb_prop in H as [H1 H2].
    apply N.eqb_eq in H1. apply IH in H2. congruence.
  - intros H. injection H as -> ->. rewrite N.eqb_refl. now apply IH.
Qed.

Lemma outcome_eqb_eq a b : outcome_eqb a b = true -> a = b.
Proof.
  destruct a, b; simpl; try discriminate.
  intros H. apply str_eqb_eq in H. now subst.
Qed.

Lemma str_eqb_nil a : str_eqb a [] = false <-> a <> [].
Proof. destruct a; simpl; split; congruence. Qed.

Section Pipeline.

Context {E : Externals}.

(** The fetcher calls no model. *)
Lemma fetch_model_calls url timeout :
  model_calls (calls (fetch_url_content url timeout)) = [].
Proof.
  unfold fetch_url_content. destruct (validate_url url); auto. simpl negb. cbv iota.
  unfold fetch_body, http_get, bind, try_except.
  destruct (requests_get url timeout headers) as [r|e].
  - destruct (negb (status_code r =? 200)%Z); auto.
    destruct (negb _); auto.
  - destruct e as [? ?|[] ?]; auto.
Qed.

(** What the extractor returns is normalized and has ten characters at least. *)
Lemma extract_ok html t :
  extract_main_content html = Ok t ->
  exists doc content full,
    Document html = Ok doc /\ summary doc = Some content /\ content <> []
    /\ full_text (title doc) content = Ok full
    /\ t = _clean_whitespace full
    /\ (10 <= len t)%Z.
Proof.
  unfold extract_main_content, extract_body.
  destruct (Document html) as [doc|e]; [|destruct e; discriminate].
  destruct (summary doc) as [[|c content]|] eqn:Hs; try discriminate.
  destruct (full_text (title doc) (c :: content)) as [full|e] eqn:Hf;
    [|destruct e; discriminate].
  set (t' := _clean_whitespace full).
  destruct (str_eqb t' [] || (len (strip t') <? 10)%Z) eqn:Hc; [discriminate|].
  intros H. injection H as <-.
  exists doc, (c :: content), full. repeat split; auto; try discriminate.
  apply orb_false_elim in Hc as [_ Hc]. apply Z.ltb_ge in Hc.
  pose proof (clean_whitespace_normalized full) as [Hl Hr _ _ _ _].
  fold t' in Hl, Hr. now rewrite (strip_id _ Hl Hr) in Hc.
Qed.

Lemma extract_ok_normalized html t :
  extract_main_content html = Ok t -> normalized t /\ (10 <= len t)%Z.
Proof.
  intros H.
  destruct (extract_ok _ H)
    as (doc & content & full & _ & _ & _ & _ & -> & Hlen).
  split; auto. apply clean_whitespace_normalized.
Qed.

(** The orchestration, by cases on the length check and the model's answer. *)
Lemma orchestrate_short url main_text :
  (len (strip main_text) < 50)%Z ->
  orchestrate url main_text = (Raise (HTTPException 400 detail_too_short_main), []).
Proof.
  intros H. unfold orchestrate. apply Z.ltb_lt in H. rewrite H.
  now rewrite orb_true_r.
Qed.

Lemma orchestrate_long url main_text :
  main_text <> [] -> (50 <= len (strip main_text))%Z ->
  orchestrate url main_text =
  (match generate_content MODEL (prompt (truncate main_text)) with
   | Ok (Some (c :: r)) => Ok {| contract := contract_text (c :: r); url := url |}
   | Ok _ => Raise (HTTPException 500 detail_generation_failed)
   | Raise e => Raise e
   end,
   [EvGenerate MODEL (prompt (truncate main_text))]).
Proof.
  intros Hne H. unfold orchestrate. apply str_eqb_nil in Hne. rewrite Hne.
  apply Z.ltb_ge in H. rewrite H. simpl orb. cbv iota.
  unfold model_generate, bind. fold MODEL.
  destruct (generate_content MODEL (prompt (truncate main_text))) as [[[|c r]|]|e];
    reflexivity.
Qed.

Lemma main_except_eq e : main_except e = raise (main_reraise e).
Proof. destruct e; reflexivity. Qed.

Lemma generate_contract_eq url html t0 main_text :
  fetch_url_content url 10 = (Ok html, t0) ->
  extract_main_content html = Ok main_text ->
  generate_contract url =
  (match result (orchestrate url main_text) with
   | Ok r => Ok r
   | Raise e => Raise (main_reraise e)
   end,
   t0 ++ calls (orchestrate url main_text)).
Proof.
  intros Hf He. unfold generate_contract, generate_body, bind, lift, try_except.
  rewrite Hf, He. destruct (orchestrate url main_text) as [[r|e] t]; simpl.
  - reflexivity.
  - rewrite main_except_eq. unfold raise. now rewrite app_nil_r.
Qed.

Lemma generate_contract_fetch_raise url e t0 :
  fetch_url_content url 10 = (Raise e, t0) ->
  generate_contract url = (Raise (main_reraise e), t0).
Proof.
  intros Hf. unfold generate_contract, generate_body, bind, try_except.
  rewrite Hf, main_except_eq. unfold raise. now rewrite app_nil_r.
Qed.

Lemma generate_contract_extract_raise url html t0 e :
  fetch_url_content url 10 = (Ok html, t0) ->
  extract_main_content html = Raise e ->
  generate_contract url = (Raise (main_reraise e), t0).
Proof.
  intros Hf He. unfold generate_contract, generate_body, bind, lift, try_except.
  rewrite Hf, He, main_except_eq. unfold raise. simpl. now rewrite !app_nil_r.
Qed.

End Pipeline.

(** * The sentences of the specification *)

(** ** The post-processing of the model's output *)

Lemma contract_text_eq response_text :
  let cleaned := filter (fun c => negb (is_nrt c)) (strip response_text) in
  let sentences := split MARU cleaned in
  contract_text response_text =
  if ((60 <? len cleaned)%Z && (2 <=? length sentences)%nat
      && (len (hd [] sentences ++ [MARU]) <=? 60)%Z)%bool
  then hd [] sentences ++ [MARU]
  else cleaned.
Proof.
  intros cleaned sentences. unfold contract_text.
  rewrite sub_newlines_filter. fold cleaned. fold sentences.
  rewrite Z.gtb_ltb.
  assert (Hs : forall n, (1 <? Z.of_nat n)%Z = (2 <=? n)%nat).
  { intros n. destruct (Nat.leb_spec 2 n), (Z.ltb_spec 1 (Z.of_nat n)); auto; lia. }
  rewrite Hs. destruct (60 <? len cleaned)%Z; auto.
Qed.

(** C1.  When the pipeline reaches the model and the model returns a
    non-empty text, the endpoint answers with a contract made of that text:
    with [cleaned] the text stripped and then rid of every newline, carriage
    return and tab, if [cleaned] is longer than 60 characters, splitting it on
    ['。'] gives two segments at least and the first segment with ['。'] has
    at most 60 characters, the contract is that first segment with ['。'];
    in every other case the contract is [cleaned] itself, whatever its
    length. *)
Theorem contract_is_first_sentence_or_cleaned {E : Externals}
    (url html main_text response_text : str) (t0 : list event) :
  fetch_url_content url 10 = (Ok html, t0) ->
  extract_main_content html = Ok main_text ->
  (50 <= len main_text)%Z ->
  generate_content MODEL (prompt (truncate main_text)) = Ok (Some response_text) ->
  response_text <> [] ->
  let cleaned := filter (fun c => negb (is_nrt c)) (strip response_text) in
  let sentences := split MARU cleaned in
  let first := hd [] sentences ++ [MARU] in
  exists c,
    result (generate_contract url) = Ok {| contract := c; url := url |}
    /\ ((60 < len cleaned)%Z -> (2 <= length sentences)%nat -> (len first <= 60)%Z ->
        c = first)
    /\ ((len cleaned <= 60)%Z \/ (length sentences < 2)%nat \/ (60 < len first)%Z ->
        c = cleaned).
Proof.
  intros Hf He Hlen Hm Hne cleaned sentences first.
  exists (contract_text response_text).
  destruct (extract_ok_normalized _ He) as [[Hl Hr _ _ _ _] H10].
  assert (Hmt : main_text <> []).
  { intros ->. unfold len in H10. simpl in H10. lia. }
  rewrite (generate_contract_eq _ Hf He).
  rewrite orchestrate_long by (rewrite ?strip_id; auto).
  rewrite Hm. unfold result. simpl fst.
  destruct response_text as [|c r]; [congruence|].
  split; [reflexivity|].
  pose proof (contract_text_eq (c :: r)) as Hc. cbv zeta in Hc.
  fold cleaned in Hc. fold sentences in Hc. fold first in Hc.
  match type of Hc with _ = if ?b then _ else _ => destruct b eqn:Hb end.
  - split; auto. intros H. exfalso.
    apply andb_prop in Hb as [Hb H3]. apply andb_prop in Hb as [H1 H2].
    apply Z.ltb_lt in H1. apply Nat.leb_le in H2. apply Z.leb_le in H3.
    fold first in H3. lia.
  - split; auto. intros H1 H2 H3. exfalso.
    apply andb_false_iff in Hb as [Hb|Hb].
    + apply andb_false_iff in Hb as [Hb|Hb].
      * apply Z.ltb_ge in Hb. lia.
      * apply Nat.leb_gt in Hb. lia.
    + apply Z.leb_gt in Hb. fold first in Hb. lia.
Qed.

Lemma contract_is_first_sentence_or_cleaned_witness :
  exists c,
    result (generate_contract (E := Runs.answering (Ok (Some Runs.two_sentences)))
              Examples.URL)
    = Ok {| contract := c; url := Examples.URL |}
    /\ c = utf8 "利用者は登録情報を正確に保つ。".
Proof.
  destruct (@contract_is_first_sentence_or_cleaned
              (Runs.answering (Ok (Some Runs.two_sentences)))
              Examples.URL Runs.article Runs.article_text Runs.two_sentences
              [EvGet Examples.URL 10 headers])
    as (c & Hc & Hfirst & _); try (Runs.run; fail).
  exists c. split; [exact Hc|].
  rewrite Hfirst; Runs.run.
Defined.

(** ** The length check and the truncation *)

(** C2.  When the extracted text has fewer than 50 characters the endpoint
    fails with status 400 and the message that the extracted text is too
    short, and the request makes no call to the model. *)
Theorem short_text_is_bad_request {E : Externals}
    (url html main_text : str) (t0 : list event) :
  fetch_url_content url 10 = (Ok html, t0) ->
  extract_main_content html = Ok main_text ->
  (len main_text < 50)%Z ->
  result (generate_contract url) = Raise (HTTPException 400 detail_too_short_main)
  /\ model_calls (calls (generate_contract url)) = [].
Proof.
  intros Hf He Hlen.
  rewrite (generate_contract_eq _ Hf He).
  rewrite orchestrate_short by (pose proof (strip_length main_text); lia).
  unfold result, calls. simpl. split; auto.
  rewrite app_nil_r. pose proof (fetch_model_calls url 10) as H.
  now rewrite Hf in H.
Qed.

Lemma short_text_is_bad_request_witness :
  result (generate_contract (E := ShortRun.short_world) Examples.URL)
  = Raise (HTTPException 400 detail_too_short_main)
  /\ model_calls (calls (generate_contract (E := ShortRun.short_world) Examples.URL))
     = [].
Proof.
  apply (@short_text_is_bad_request ShortRun.short_world Examples.URL
           ShortRun.note (utf8 "Closed for maintenance until Monday.")
           [EvGet Examples.URL 10 headers]); Runs.run.
Defined.

Lemma model_calls_app t1 t2 : model_calls (t1 ++ t2) = model_calls t1 ++ model_calls t2.
Proof.
  induction t1 as [|[? ? ?|? ?] t1 IH]; simpl; auto. now rewrite IH.
Qed.

Lemma slice_to_prefix n s : exists rest, s = slice_to n s ++ rest.
Proof. exists (skipn (Z.to_nat n) s). unfold slice_to. now rewrite firstn_skipn. Qed.

Lemma slice_to_len n s : (0 <= n <= len s)%Z -> len (slice_to n s) = n.
Proof.
  intros H. unfold slice_to, len in *. rewrite length_firstn. lia.
Qed.

(** C7.  The request sends one message to the model.  Its text ends with the
    first 150000 characters of the extracted text when that text is longer
    (a prefix of it, of length 150000), and with the extracted text itself
    when it has at most 150000 characters. *)
Theorem prompt_holds_first_150000 {E : Externals}
    (url html main_text : str) (t0 : list event) :
  fetch_url_content url 10 = (Ok html, t0) ->
  extract_main_content html = Ok main_text ->
  (50 <= len main_text)%Z ->
  exists sent,
    model_calls (calls (generate_contract url)) =
    [ [ {| role := utf8 "user";
           parts := [ SYSTEM_PROMPT ++ [LF; LF]
                      ++ utf8 "以下のテキストから契約文を生成してください："
                      ++ [LF; LF] ++ sent ] |} ] ]
    /\ ((150000 < len main_text)%Z ->
        sent = slice_to 150000 main_text
        /\ len sent = 150000%Z /\ exists rest, main_text = sent ++ rest)
    /\ ((len main_text <= 150000)%Z -> sent = main_text).
Proof.
  intros Hf He Hlen.
  destruct (extract_ok_normalized _ He) as [[Hl Hr _ _ _ _] H10].
  assert (Hmt : main_text <> []).
  { intros ->. unfold len in H10. simpl in H10. lia. }
  exists (truncate main_text). split.
  - rewrite (generate_contract_eq _ Hf He).
    rewrite orchestrate_long by (rewrite ?strip_id; auto).
    unfold calls. cbn [snd]. rewrite model_calls_app.
    pose proof (fetch_model_calls url 10) as H. rewrite Hf in H.
    unfold calls in H. cbn [snd] in H. rewrite H. reflexivity.
  - unfold truncate. rewrite Z.gtb_ltb.
    destruct (Z.ltb_spec 150000 (len main_text)); split; intros; try lia; auto.
    repeat split; auto.
    + apply slice_to_len. lia.
    + apply slice_to_prefix.
Qed.

Lemma prompt_holds_first_150000_witness :
  exists sent,
    model_calls (calls (generate_contract (E := LongRun.long_world) Examples.URL)) =
    [ [ {| role := utf8 "user";
           parts := [ SYSTEM_PROMPT (Externals := LongRun.long_world) ++ [LF; LF]
                      ++ utf8 "以下のテキストから契約文を生成してください："
                      ++ [LF; LF] ++ sent ] |} ] ]
    /\ ((150000 < len LongRun.long_text)%Z ->
        sent = slice_to 150000 LongRun.long_text
        /\ len sent = 150000%Z /\ exists rest, LongRun.long_text = sent ++ rest)
    /\ ((len LongRun.long_text <= 150000)%Z -> sent = LongRun.long_text).
Proof.
  apply (@prompt_holds_first_150000 LongRun.long_world Examples.URL
           (utf8 "<p>a...</p>") LongRun.long_text
           [EvGet Examples.URL 10 headers]).
  - vm_compute. reflexivity.
  - apply outcome_eqb_eq. vm_compute. reflexivity.
  - vm_compute. discriminate.
Defined.

(** ** The model's answer *)

(** C9.  When the model returns a non-empty text made of whitespace only, the
    endpoint does not fail: it answers with the empty string as contract.
    The "generation failed" error (status 500) is the outcome of a returned
    answer exactly when that answer is absent or the empty string. *)
Theorem whitespace_answer_gives_empty_contract {E : Externals}
    (url html main_text : str) (t0 : list event) (answer : option str) :
  fetch_url_content url 10 = (Ok html, t0) ->
  extract_main_content html = Ok main_text ->
  (50 <= len main_text)%Z ->
  generate_content MODEL (prompt (truncate main_text)) = Ok answer ->
  (forall response_text,
      answer = Some response_text -> response_text <> [] ->
      forallb isspace response_text = true ->
      result (generate_contract url) = Ok {| contract := []; url := url |})
  /\ (result (generate_contract url)
      = Raise (HTTPException 500 detail_generation_failed)
      <-> answer = None \/ answer = Some []).
Proof.
  intros Hf He Hlen Hm.
  destruct (extract_ok_normalized _ He) as [[Hl Hr _ _ _ _] H10].
  assert (Hmt : main_text <> []).
  { intros ->. unfold len in H10. simpl in H10. lia. }
  rewrite (generate_contract_eq _ Hf He).
  rewrite orchestrate_long by (rewrite ?strip_id; auto).
  rewrite Hm. unfold result. cbn [fst]. split.
  - intros response_text -> Hne Hws.
    destruct response_text as [|c r]; [congruence|].
    unfold contract_text. rewrite (strip_all_space _ Hws). reflexivity.
  - destruct answer as [[|c r]|]; split; intros H; auto; try discriminate.
    destruct H; discriminate.
Qed.

Lemma whitespace_answer_gives_empty_contract_witness :
  result (generate_contract (E := Runs.answering (Ok (Some [LF; SP; TAB])))
            Examples.URL)
  = Ok {| contract := []; url := Examples.URL |}.
Proof.
  refine (proj1 (@whitespace_answer_gives_empty_contract
                   (Runs.answering (Ok (Some [LF; SP; TAB])))
                   Examples.URL Runs.article Runs.article_text
                   [EvGet Examples.URL 10 headers] (Some [LF; SP; TAB])
                   _ _ _ _) [LF; SP; TAB] _ _ _); Runs.run.
Defined.

(** ** The URL validator *)


(** C5, as amended.  The validator returns true exactly when [urlparse]
    returns, without raising, a result whose scheme is [http] or [https] and
    whose network location ([netloc]: user information, host and port
    together) is not empty; when [urlparse] raises, the validator returns
    false and raises nothing.  The host itself is not looked at. *)
Theorem validate_url_iff_scheme_and_netloc {E : Externals} (url : str) :
  (validate_url url = true <->
   exists parsed,
     urlparse url = Ok parsed
     /\ (scheme parsed = utf8 "http" \/ scheme parsed = utf8 "https")
     /\ netloc parsed <> [])
  /\ (forall e, urlparse url = Raise e -> validate_url url = false).
Proof.
  unfold validate_url. split.
  - destruct (urlparse url) as [parsed|e]; split.
    + intros H. apply andb_prop in H as [Hs Hn]. exists parsed.
      repeat split; auto.
      * simpl in Hs. rewrite orb_false_r in Hs.
        apply orb_prop in Hs as [Hs|Hs]; apply str_eqb_eq in Hs; auto.
      * apply str_eqb_nil. now destruct (str_eqb (netloc parsed) []).
    + intros (p & Hp & Hs & Hn). injection Hp as <-.
      apply str_eqb_nil in Hn. rewrite Hn. rewrite andb_true_r.
      simpl. rewrite orb_false_r.
      destruct Hs as [Hs|Hs]; apply str_eqb_eq in Hs; rewrite Hs; auto.
      apply orb_true_r.
    + discriminate.
    + intros (p & Hp & _). discriminate.
  - intros e ->. reflexivity.
Qed.

(** C5, as stated, fails: [http://:80/] has an empty host and is accepted,
    its network location being [:80]. *)
Lemma validate_url_accepts_empty_host :
  urlparse (Externals := Runs.answering (Ok None)) (utf8 "http://:80/")
  = Ok {| scheme := utf8 "http"; netloc := utf8 ":80" |}
  /\ Examples.hostname (utf8 ":80") = []
  /\ validate_url (E := Runs.answering (Ok None)) (utf8 "http://:80/") = true.
Proof. vm_compute. repeat split. Qed.

(** ** The content fetcher *)

(** C6, as amended.  For a validated URL and the response [requests.get]
    returns, with [content_type] the lower-cased [content-type] header (empty
    when the header is absent): the fetcher returns a text exactly when the
    status is 200 and [content_type] contains [text/html] or
    [application/xhtml], and the text is the body; another status raises
    status 400 with a message ending in that status, whatever the content
    type; status 200 with another content type raises status 400 with the
    message that the page is not HTML. *)
Theorem fetch_succeeds_iff_200_and_html {E : Externals}
    (url : str) (timeout : Z) (response : Response) :
  validate_url url = true ->
  requests_get url timeout headers = Ok response ->
  let content_type :=
    str_lower (match content_type_header response with
               | Some v => v
               | None => []
               end) in
  let html_family :=
    contains (utf8 "text/html") content_type
    || contains (utf8 "application/xhtml") content_type in
  ((exists body, result (fetch_url_content url timeout) = Ok body)
   <-> status_code response = 200%Z /\ html_family = true)
  /\ (status_code response = 200%Z -> html_family = true ->
      result (fetch_url_content url timeout) = Ok (text response))
  /\ (status_code response <> 200%Z ->
      result (fetch_url_content url timeout)
      = Raise (HTTPException 400
                 (utf8 "URLの取得に失敗しました。ステータスコード: "
                  ++ str_of_int (status_code response))))
  /\ (status_code response = 200%Z -> html_family = false ->
      result (fetch_url_content url timeout)
      = Raise (HTTPException 400 detail_not_html)).
Proof.
  intros Hv Hg content_type html_family.
  unfold fetch_url_content. rewrite Hv. simpl negb. cbv iota.
  unfold fetch_body, http_get, bind, try_except, result. rewrite Hg.
  fold content_type.
  replace (existsb (fun ct => contains ct content_type)
             [utf8 "text/html"; utf8 "application/xhtml"])
    with html_family
    by (unfold html_family; simpl; now rewrite orb_false_r).
  destruct (Z.eqb_spec (status_code response) 200) as [Hs|Hs];
    destruct html_family eqn:Hh; simpl;
    (split; [split; [intros [body Hb] | intros [H1 H2]]
            | repeat split; intros]);
    try congruence; try discriminate; eauto.
Qed.

(** C6, as stated, fails.  The header [Text/HTML; charset=UTF-8] contains
    neither [text/html] nor [application/xhtml], and the fetcher returns the
    body: the header is compared in lower case.  A response with status 404
    and content type [application/json] raises the error of the status, not
    the error that the page is not HTML: the status is checked first. *)
Lemma fetch_compares_lower_case_after_status :
  content_type_header Runs.article_response
  = Some (utf8 "Text/HTML; charset=UTF-8")
  /\ contains (utf8 "text/html") (utf8 "Text/HTML; charset=UTF-8") = false
  /\ contains (utf8 "application/xhtml") (utf8 "Text/HTML; charset=UTF-8") = false
  /\ result (fetch_url_content
               (E := Examples.world (Ok Runs.article_response)
                       (Raise (Error Exception [])) (Ok None))
               Examples.URL 10)
     = Ok Runs.article
  /\ result (fetch_url_content
               (E := Examples.world (Ok Runs.json_404)
                       (Raise (Error Exception [])) (Ok None))
               Examples.URL 10)
     = Raise (HTTPException 400
                (utf8 "URLの取得に失敗しました。ステータスコード: 404")).
Proof. vm_compute. repeat split. Qed.

Lemma fetch_succeeds_iff_200_and_html_witness :
  result (fetch_url_content
            (E := Examples.world (Ok Runs.article_response) (Raise (Error Exception [])) (Ok None))
            Examples.URL 10)
  = Ok (text Runs.article_response).
Proof.
  pose proof (@fetch_succeeds_iff_200_and_html
                (Examples.world (Ok Runs.article_response) (Raise (Error Exception [])) (Ok None))
                Examples.URL 10 Runs.article_response) as H.
  cbv zeta in H.
  destruct H as (_ & H & _); [vm_compute; reflexivity | reflexivity |].
  apply H; vm_compute; reflexivity.
Defined.

(** ** Error propagation *)

Lemma fetch_raise_eq {E : Externals} url timeout e t :
  validate_url url = true ->
  fetch_body url timeout = (Raise e, t) ->
  fetch_url_content url timeout
  = (fst (fetch_except e), t ++ snd (fetch_except e)).
Proof.
  intros Hv Hb. unfold fetch_url_content, try_except. rewrite Hv, Hb.
  simpl negb. cbv iota. now destruct (fetch_except e).
Qed.

(** C8.  An [HTTPException] passes every handler with its status and its
    message: raised in the fetcher (by the URL check or inside its [try]
    block), in the extractor or by the checks of the endpoint, it is the
    outcome of the request.  An exception that is not an [HTTPException] and
    that no handler names is wrapped once, where it is first caught, into
    status 500 with a message that ends with its own message, and passes the
    later handlers in that form. *)
Theorem classified_errors_pass_unchanged {E : Externals} (url : str) :
  (* the handlers *)
  (forall c d,
      fetch_except (HTTPException c d) = raise (HTTPException c d)
      /\ extract_except (HTTPException c d) = Raise (HTTPException c d)
      /\ main_except (HTTPException c d) = raise (HTTPException c d))
  (* raised by the fetcher *)
  /\ (forall c d,
         result (fetch_url_content url 10) = Raise (HTTPException c d) ->
         result (generate_contract url) = Raise (HTTPException c d))
  /\ (forall c d t,
         validate_url url = true ->
         fetch_body url 10 = (Raise (HTTPException c d), t) ->
         result (generate_contract url) = Raise (HTTPException c d))
  (* raised by the extractor *)
  /\ (forall html t0 c d,
         fetch_url_content url 10 = (Ok html, t0) ->
         extract_body html = Raise (HTTPException c d) ->
         result (generate_contract url) = Raise (HTTPException c d))
  (* raised by the checks of the endpoint, or by the model *)
  /\ (forall html t0 main_text c d,
         fetch_url_content url 10 = (Ok html, t0) ->
         extract_main_content html = Ok main_text ->
         result (orchestrate url main_text) = Raise (HTTPException c d) ->
         result (generate_contract url) = Raise (HTTPException c d))
  (* other exceptions: wrapped where they are first caught *)
  /\ (forall msg t,
         validate_url url = true ->
         fetch_body url 10 = (Raise (Error Exception msg), t) ->
         result (generate_contract url)
         = Raise (HTTPException 500
                    (utf8 "予期しないエラーが発生しました: " ++ msg)))
  /\ (forall html t0 cls msg,
         fetch_url_content url 10 = (Ok html, t0) ->
         extract_body html = Raise (Error cls msg) ->
         result (generate_contract url)
         = Raise (HTTPException 500
                    (utf8 "テキスト抽出中にエラーが発生しました: " ++ msg)))
  /\ (forall html t0 main_text cls msg,
         fetch_url_content url 10 = (Ok html, t0) ->
         extract_main_content html = Ok main_text ->
         result (orchestrate url main_text) = Raise (Error cls msg) ->
         result (generate_contract url)
         = Raise (HTTPException 500
                    (utf8 "契約文生成中にエラーが発生しました: " ++ msg))).
Proof.
  repeat split.
  - intros c d H. destruct (fetch_url_content url 10) as [r t] eqn:Hf.
    unfold result in H. simpl in H. subst r.
    rewrite (generate_contract_fetch_raise _ Hf). reflexivity.
  - intros c d t Hv Hb.
    pose proof (fetch_raise_eq _ _ Hv Hb) as Hf. simpl in Hf.
    rewrite (generate_contract_fetch_raise _ Hf). reflexivity.
  - intros html t0 c d Hf He.
    assert (He' : extract_main_content html = Raise (HTTPException c d)).
    { unfold extract_main_content. rewrite He. reflexivity. }
    rewrite (generate_contract_extract_raise _ Hf He'). reflexivity.
  - intros html t0 main_text c d Hf He Ho.
    rewrite (generate_contract_eq _ Hf He). unfold result in *. simpl.
    rewrite Ho. reflexivity.
  - intros msg t Hv Hb.
    pose proof (fetch_raise_eq _ _ Hv Hb) as Hf. simpl in Hf.
    rewrite (generate_contract_fetch_raise _ Hf). reflexivity.
  - intros html t0 cls msg Hf He.
    assert (He' : extract_main_content html
                  = Raise (HTTPException 500 (detail_extract_error msg))).
    { unfold extract_main_content. rewrite He. reflexivity. }
    rewrite (generate_contract_extract_raise _ Hf He'). reflexivity.
  - intros html t0 main_text cls msg Hf He Ho.
    rewrite (generate_contract_eq _ Hf He). unfold result in *. simpl.
    rewrite Ho. reflexivity.
Qed.

Lemma classified_errors_pass_unchanged_witness :
  result (generate_contract (E := Runs.answering (Ok None))
            (utf8 "ftp://example.com/file"))
  = Raise (HTTPException 400 detail_invalid_url).
Proof.
  apply (proj1 (proj2 (@classified_errors_pass_unchanged
                         (Runs.answering (Ok None))
                         (utf8 "ftp://example.com/file")))).
  vm_compute. reflexivity.
Defined.

(** ** Whitespace normalisation and the extractor *)

(** C4.  Whitespace normalisation is idempotent. *)
Theorem clean_whitespace_idempotent (s : str) :
  _clean_whitespace (_clean_whitespace s) = _clean_whitespace s.
Proof. apply normalized_fixed, clean_whitespace_normalized. Qed.

(** C10.  A text the extractor returns has ten characters at least, neither
    begins nor ends with whitespace, holds no two spaces in a row and no
    three newlines in a row, and none of its lines begins or ends with
    whitespace (a space in particular). *)
Theorem extracted_text_is_normalized {E : Externals} (html t : str) :
  extract_main_content html = Ok t ->
  (10 <= len t)%Z
  /\ lstripped t = true /\ rstripped t = true
  /\ contains [SP; SP] t = false
  /\ contains [LF; LF; LF] t = false
  /\ Forall (fun line => lstripped line = true /\ rstripped line = true
                         /\ hd_error line <> Some SP
                         /\ hd_error (rev line) <> Some SP)
            (split LF t).
Proof.
  intros H. destruct (extract_ok_normalized _ H) as [[Hl Hr Hn Ho Hll Hlr] Hlen].
  repeat split; auto.
  - now rewrite nodsp_contains, Hn.
  - now apply ok2_no_triple.
  - unfold lines_l, lines_r in *.
    induction (split LF t) as [|l ls IH]; constructor.
    + inversion Hll as [|? ? Hl1 _]; inversion Hlr as [|? ? Hr1 _]; subst.
      repeat split; auto.
      * destruct l as [|c l]; [discriminate|]. simpl in *.
        intros Hc. injection Hc as ->. discriminate.
      * rewrite <- (lstrip_id _ Hl1) in Hr1 at 1.
        pose proof (rstrip_id _ Hr1) as Hfix. rewrite (lstrip_id _ Hl1) in Hfix.
        rewrite rstrip_rev in Hfix.
        destruct (rev l) as [|c r] eqn:Hrev; [discriminate|].
        simpl. intros Hc. injection Hc as ->.
        simpl in Hfix. change (isspace SP) with true in Hfix.
        apply (f_equal (@rev char)) in Hfix. rewrite rev_involutive, Hrev in Hfix.
        pose proof (lstrip_length r) as Hlen'.
        apply (f_equal (@length char)) in Hfix. simpl in Hfix. lia.
    + inversion Hll; inversion Hlr; subst. auto.
Qed.

Lemma extracted_text_is_normalized_witness :
  (10 <= len Runs.article_text)%Z
  /\ lstripped Runs.article_text = true /\ rstripped Runs.article_text = true
  /\ contains [SP; SP] Runs.article_text = false
  /\ contains [LF; LF; LF] Runs.article_text = false
  /\ Forall (fun line => lstripped line = true /\ rstripped line = true
                         /\ hd_error line <> Some SP
                         /\ hd_error (rev line) <> Some SP)
            (split LF Runs.article_text).
Proof.
  apply (@extracted_text_is_normalized (Runs.answering (Ok None)) Runs.article).
  vm_compute. reflexivity.
Defined.

(** ** Tags and entities *)

(** C3, as stated, fails.  The first summary below holds a paragraph of more
    than ten characters once its tags are removed, and the text the
    extractor returns for it contains the tag [<b>] and the entity [&amp;],
    decoded from the escaped text of the page.  The second holds a paragraph
    of twelve characters once its tags are removed, ten of them spaces: the
    normalised text of title and paragraph has eight characters and the
    extractor refuses it. *)
Lemma extracted_text_keeps_escaped_markup :
  (10 <=? len (Re.sub re_tag [] EscapedRun.lesson))%Z = true
  /\ extract_main_content (E := EscapedRun.lesson_world) EscapedRun.lesson
     = Ok EscapedRun.lesson_text
  /\ Re.search re_tag EscapedRun.lesson_text = true
  /\ contains (utf8 "<b>") EscapedRun.lesson_text = true
  /\ contains (utf8 "&amp;") EscapedRun.lesson_text = true
  /\ (10 <=? len (Re.sub re_tag [] SpacedRun.spaced))%Z = true
  /\ extract_main_content (E := SpacedRun.spaced_world) SpacedRun.spaced
     = Raise (HTTPException 400 detail_too_short_extract).
Proof. vm_compute. repeat split. Qed.

(** C3, as amended.  When the summary is not empty, the decoding of the
    entities returns for the summary and for the title, and the text made of
    the title and the summary (tags removed, then entities decoded once,
    then whitespace normalised) has ten characters at least, the extractor
    returns that text, which is not empty and is normalised.  The tag pass
    [_remove_html_tags] applies leaves no match of [<[^>]+>] in its own
    result, for the summary and for the title; entities are decoded after
    it, so markup and entities that were escaped in the page stay in the
    text as literal characters. *)
Theorem extractor_returns_normalized_text {E : Externals}
    (html : str) (doc : ReadabilityDoc) (content full : str) :
  Document html = Ok doc ->
  summary doc = Some content ->
  content <> [] ->
  full_text (title doc) content = Ok full ->
  (10 <= len (_clean_whitespace full))%Z ->
  extract_main_content html = Ok (_clean_whitespace full)
  /\ _clean_whitespace full <> []
  /\ normalized (_clean_whitespace full)
  /\ (forall text,
         _remove_html_tags text = html_unescape (Re.sub re_tag [] text)
         /\ Re.search re_tag (Re.sub re_tag [] text) = false).
Proof.
  intros Hd Hs Hne Hf Hlen.
  set (t := _clean_whitespace full) in *.
  pose proof (clean_whitespace_normalized full) as Hn.
  fold t in Hn.
  assert (Ht : t <> []).
  { intros Ht. rewrite Ht in Hlen. unfold len in Hlen. simpl in Hlen. lia. }
  split; [|split; [exact Ht|split; [exact Hn|]]].
  - unfold extract_main_content, extract_body. rewrite Hd, Hs.
    destruct content as [|c content]; [congruence|].
    rewrite Hf. fold t. apply str_eqb_nil in Ht. rewrite Ht.
    destruct Hn as [Hl Hr _ _ _ _]. rewrite (strip_id _ Hl Hr).
    apply Z.ltb_ge in Hlen. rewrite Hlen. reflexivity.
  - intros text. split; [reflexivity | apply sub_tag_spec].
Qed.

Lemma extractor_returns_normalized_text_witness :
  extract_main_content (E := EscapedRun.lesson_world) EscapedRun.lesson
  = Ok (_clean_whitespace EscapedRun.lesson_text).
Proof.
  apply (@extractor_returns_normalized_text EscapedRun.lesson_world
           EscapedRun.lesson
           {| title := Some EscapedRun.lesson_title;
              summary := Some EscapedRun.lesson |}
           EscapedRun.lesson EscapedRun.lesson_text); Runs.run.
Defined.

(** * Further properties of the code *)

(** ** [_clean_whitespace] deletes whitespace and nothing else *)

Lemma span_firstn cls s : forallb cls (firstn (span cls s) s) = true.
Proof.
  induction s as [|c s IH]; auto. simpl span.
  destruct (cls c) eqn:Hc; auto. simpl. now rewrite Hc.
Qed.

Lemma forallb_weaken (f g : char -> bool) s :
  (forall c, f c = true -> g c = true) -> forallb f s = true -> forallb g s = true.
Proof.
  intros H. induction s as [|c s IH]; auto. simpl. intros Hs.
  apply andb_prop in Hs as [Hc Hs]. rewrite (H _ Hc). auto.
Qed.

Lemma wsdel_sub_spaces s : wsdel s (Re.sub re_spaces [SP] s).
Proof.
  apply (sub_ind re_spaces [SP] wsdel); auto.
  intros c t n Hm IH. unfold re_spaces in Hm. rewrite match_plus in Hm.
  destruct (SP =? c)%N eqn:Hc; [|discriminate].
  apply N.eqb_eq in Hc. subst c. injection Hm as <-.
  simpl app. apply wsdel_keep.
  rewrite <- (firstn_skipn (span (N.eqb SP) t) t) at 1.
  apply (wsdel_app (a' := [])); auto.
  apply wsdel_all_space.
  apply (forallb_weaken (N.eqb SP)); [|apply span_firstn].
  intros c Hc. apply N.eqb_eq in Hc. now subst c.
Qed.

Lemma wsdel_to_last_newline s :
  lastnl s <> 0%nat -> wsdel (firstn (lastnl s) s) [LF].
Proof.
  induction s as [|c s IH]; simpl lastnl; [congruence|].
  destruct (isspace c) eqn:Hc; [|congruence].
  destruct (lastnl s) as [|m] eqn:Hl.
  - destruct (is_LF c) eqn:HL; [|congruence]. intros _.
    unfold is_LF in HL. apply N.eqb_eq in HL. subst c. simpl. auto.
  - intros _. change (firstn (S (S m)) (c :: s)) with (c :: firstn (S m) s).
    apply wsdel_drop; auto.
Qed.

Lemma wsdel_sub_blank_lines s : wsdel s (Re.sub re_blank_lines [LF; LF] s).
Proof.
  apply (sub_ind re_blank_lines [LF; LF] wsdel); auto.
  intros c t n Hm IH. rewrite match_blank_lines in Hm.
  destruct (is_LF c) eqn:HL; [|discriminate].
  destruct (Nat.leb_spec 2 (wsnl t)) as [H2|H2]; [|discriminate].
  simpl in Hm. injection Hm as <-.
  unfold is_LF in HL. apply N.eqb_eq in HL. subst c.
  simpl app. apply wsdel_keep.
  rewrite <- (firstn_skipn (lastnl t) t) at 1.
  apply (wsdel_app (a' := [LF])); auto.
  apply wsdel_to_last_newline. intros H0. apply lastnl_wsnl in H0. lia.
Qed.

Lemma wsdel_clean_whitespace s : wsdel s (_clean_whitespace s).
Proof.
  unfold _clean_whitespace.
  eapply wsdel_trans; [apply wsdel_sub_spaces|].
  eapply wsdel_trans; [apply wsdel_sub_blank_lines|].
  eapply wsdel_trans; [apply wsdel_strip_lines | apply wsdel_strip].
Qed.

Lemma wsdel_visible s t : wsdel s t -> visible t = visible s.
Proof.
  induction 1 as [|c s t H IH|c s t Hc H IH]; auto; unfold visible in *; simpl.
  - now rewrite IH.
  - now rewrite Hc.
Qed.

Lemma wsdel_length s t : wsdel s t -> (length t <= length s)%nat.
Proof. induction 1; simpl; lia. Qed.

(** X1.  [_clean_whitespace] only deletes whitespace characters: its result
    is the text with some whitespace characters taken out, so the characters
    that are not whitespace are all kept, in their order, and the result is
    never longer than the text. *)
Theorem clean_whitespace_only_deletes_whitespace (s : str) :
  wsdel s (_clean_whitespace s)
  /\ visible (_clean_whitespace s) = visible s
  /\ (len (_clean_whitespace s) <= len s)%Z.
Proof.
  pose proof (wsdel_clean_whitespace s) as H. split; [exact H|]. split.
  - now apply wsdel_visible.
  - unfold len. apply wsdel_length in H. lia.
Qed.

Lemma visible_nil s : visible s = [] <-> forallb isspace s = true.
Proof.
  unfold visible. induction s as [|c s IH]; simpl; [tauto|].
  destruct (isspace c); simpl; [exact IH|]. split; discriminate.
Qed.

(** X2.  [_clean_whitespace] returns the empty string exactly for the texts
    made of whitespace only (the empty text among them). *)
Theorem clean_whitespace_empty_iff_blank (s : str) :
  _clean_whitespace s = [] <-> forallb isspace s = true.
Proof.
  pose proof (wsdel_visible (wsdel_clean_whitespace s)) as Hv. split.
  - intros H. rewrite H in Hv. apply visible_nil. now rewrite <- Hv.
  - intros H. apply visible_nil in H. rewrite H in Hv.
    pose proof (clean_whitespace_normalized s) as [Hl _ _ _ _ _].
    destruct (_clean_whitespace s) as [|c t]; auto.
    simpl in Hl. unfold visible in Hv. simpl in Hv.
    destruct (isspace c); discriminate.
Qed.

(** X3.  The texts [_clean_whitespace] leaves as they are are exactly the
    normalised ones: neither begin nor end with whitespace, as a whole and
    line by line, no two spaces in a row, at most two newlines in a run of
    whitespace. *)
Theorem clean_whitespace_fixed_iff_normalized (s : str) :
  _clean_whitespace s = s <-> normalized s.
Proof.
  split.
  - intros H. rewrite <- H. apply clean_whitespace_normalized.
  - apply normalized_fixed.
Qed.

(** ** The tag pass of [_remove_html_tags] *)

Lemma subseq_skipn n s t : subseq (skipn n s) t -> subseq s t.
Proof.
  revert s. induction n as [|n IH]; intros [|c s]; simpl; auto.
Qed.

Lemma subseq_length s t : subseq s t -> (length t <= length s)%nat.
Proof. induction 1; simpl; lia. Qed.

Lemma subseq_sub_tag s : subseq s (Re.sub re_tag [] s).
Proof.
  apply (sub_ind re_tag [] subseq); auto.
  intros c t n _ IH. simpl app. apply subseq_drop. now apply subseq_skipn with n.
Qed.

Lemma search_false p s :
  Re.search p s = false -> forall k, Re.match_here p (skipn k s) = None.
Proof.
  induction s as [|c s IH]; intros H k.
  - rewrite skipn_nil. simpl in H. destruct (Re.match_here p []); congruence.
  - rewrite search_cons in H.
    destruct (Re.match_here p (c :: s)) eqn:Hm; [discriminate|].
    destruct k as [|k]; simpl; auto.
Qed.

Lemma tag_at_hd c s : tag_at (c :: s) = true -> c = 60%N.
Proof.
  destruct s as [|d s]; simpl; try discriminate.
  destruct (N.eqb_spec 60 c) as [<-|]; [|discriminate]. reflexivity.
Qed.

Lemma tag_at_lt s : tag_at s = true -> In 60%N s.
Proof.
  destruct s as [|c s]; [discriminate|].
  intros H. apply tag_at_hd in H. subst c. now left.
Qed.

Lemma tag_at_gt s : tag_at s = true -> In 62%N s.
Proof.
  destruct s as [|c [|d s]]; simpl; try discriminate. intros H.
  apply andb_prop in H as [_ H]. apply existsb_exists in H as (x & Hx & Hg).
  unfold is_gt in Hg. apply N.eqb_eq in Hg. subst x. auto.
Qed.

Lemma In_skipn (x : char) k s : In x (skipn k s) -> In x s.
Proof.
  revert s. induction k as [|k IH]; intros [|c s]; simpl; auto.
Qed.

Lemma sub_tag_no_bracket s :
  ~ In 60%N s \/ ~ In 62%N s -> Re.sub re_tag [] s = s.
Proof.
  intros H. apply sub_no_match. intros k. rewrite match_tag.
  match goal with |- (if ?b then _ else _) = _ => destruct b eqn:Ht end; auto.
  exfalso. destruct H as [H|H]; apply H; apply (@In_skipn _ k).
  - now apply tag_at_lt.
  - now apply tag_at_gt.
Qed.

Lemma span_not_gt m b : ~ In 62%N m -> span not_gt (m ++ 62%N :: b) = length m.
Proof.
  induction m as [|c m IH]; intros H; simpl.
  - reflexivity.
  - unfold not_gt at 1. destruct (N.eqb_spec c 62) as [->|Hc].
    + exfalso. apply H. now left.
    + simpl. f_equal. apply IH. intros Hi. apply H. now right.
Qed.

Lemma skipn_past (m : str) c b : skipn (S (length m)) (m ++ c :: b) = b.
Proof. induction m as [|x m IH]; auto. Qed.

Lemma sub_tag_one m b :
  m <> [] -> ~ In 62%N m ->
  Re.sub re_tag [] (60%N :: m ++ 62%N :: b) = Re.sub re_tag [] b.
Proof.
  intros Hm H. destruct m as [|d m]; [congruence|].
  rewrite sub_cons, match_tag.
  match goal with |- context [tag_at ?x] => assert (Ht : tag_at x = true) end.
  { simpl. unfold not_gt. destruct (N.eqb_spec d 62) as [->|_].
    - exfalso. apply H. now left.
    - simpl. apply existsb_exists. exists 62%N. split; [|reflexivity].
      apply in_or_app. right. now left. }
  rewrite Ht. simpl tl. rewrite span_not_gt by (intros Hi; apply H; now right).
  change (3 + length m)%nat with (S (S (length (d :: m)))). cbv beta iota.
  now rewrite skipn_past.
Qed.

Lemma sub_tag_prefix a s :
  ~ In 60%N a -> Re.sub re_tag [] (a ++ s) = a ++ Re.sub re_tag [] s.
Proof.
  induction a as [|c a IH]; intros H; auto.
  simpl app. rewrite sub_cons, match_tag.
  match goal with |- context [tag_at ?x] => destruct (tag_at x) eqn:Ht end.
  - apply tag_at_hd in Ht. subst c. exfalso. apply H. now left.
  - f_equal. apply IH. intros Hi. apply H. now right.
Qed.

(** X4.  The tag pass of [_remove_html_tags] takes out a ['<'], the
    characters after it and the next ['>'], when there is one character at
    least between the two: the text before the first ['<'] is kept, the
    pass goes on after the ['>'], and entities are decoded in what is left.
    A ['<'] directly followed by ['>'] is no tag and stays. *)
Theorem remove_html_tags_drops_first_tag {E : Externals} (a m b : str) :
  ~ In 60%N a -> m <> [] -> ~ In 62%N m ->
  Re.sub re_tag [] (a ++ 60%N :: m ++ 62%N :: b) = a ++ Re.sub re_tag [] b
  /\ _remove_html_tags (a ++ 60%N :: m ++ 62%N :: b)
     = html_unescape (a ++ Re.sub re_tag [] b)
  /\ Re.sub re_tag [] (a ++ 60%N :: 62%N :: b)
     = a ++ 60%N :: 62%N :: Re.sub re_tag [] b.
Proof.
  intros Ha Hm Hn.
  assert (H1 : Re.sub re_tag [] (a ++ 60%N :: m ++ 62%N :: b)
               = a ++ Re.sub re_tag [] b).
  { rewrite sub_tag_prefix by assumption. f_equal. now apply sub_tag_one. }
  split; [exact H1|]. split.
  - unfold _remove_html_tags. now rewrite H1.
  - rewrite sub_tag_prefix by assumption. reflexivity.
Qed.

Lemma remove_html_tags_drops_first_tag_witness :
  Re.sub re_tag [] ([97; 98] ++ 60 :: [112] ++ 62 :: [99; 60; 62; 100])%N
  = ([97; 98] ++ Re.sub re_tag [] [99; 60; 62; 100])%N.
Proof.
  apply (@remove_html_tags_drops_first_tag (Runs.answering (Ok None))
           [97; 98]%N [112]%N [99; 60; 62; 100]%N).
  - simpl. intuition discriminate.
  - discriminate.
  - simpl. intuition discriminate.
Defined.

(** X5.  The tag pass only deletes characters: its result is the text with
    some characters taken out, never longer than the text.  A text without
    ['<'], or without ['>'], passes unchanged, and a second pass over the
    result of the first changes nothing. *)
Theorem tag_pass_only_deletes (s : str) :
  subseq s (Re.sub re_tag [] s)
  /\ (len (Re.sub re_tag [] s) <= len s)%Z
  /\ (~ In 60%N s \/ ~ In 62%N s -> Re.sub re_tag [] s = s)
  /\ Re.sub re_tag [] (Re.sub re_tag [] s) = Re.sub re_tag [] s.
Proof.
  pose proof (subseq_sub_tag s) as H. split; [exact H|]. split; [|split].
  - unfold len. apply subseq_length in H. lia.
  - apply sub_tag_no_bracket.
  - apply sub_no_match, search_false, sub_tag_spec.
Qed.

(** X6.  A text with no ['<'] and no ['&'] is returned as it is by
    [_remove_html_tags], [html.unescape] returning a text without ['&'] as
    it is. *)
Theorem remove_html_tags_keeps_plain_text {E : Externals} (s : str) :
  (forall t, ~ In 38%N t -> html_unescape t = Ok t) ->
  ~ In 60%N s -> ~ In 38%N s ->
  _remove_html_tags s = Ok s.
Proof.
  intros Hu Hl Ha. unfold _remove_html_tags.
  rewrite sub_tag_no_bracket by now left. now apply Hu.
Qed.

(** The decoder of the concrete runs raises nothing but the [ValueError] of
    [int]. *)
Lemma charref_raises table s e n :
  Examples.charref table s = Some (Raise e, n) -> exists msg, e = Error Exception msg.
Proof.
  unfold Examples.charref.
  repeat match goal with
         | |- context [match ?x with _ => _ end] => destruct x
         end;
    try discriminate; intros H; injection H as <- _; eauto.
Qed.

Lemma unescape_from_raises table s :
  forall skip e,
    Examples.unescape_from table s skip = Raise e ->
    exists msg, e = Error Exception msg.
Proof.
  induction s as [|c s IH]; intros skip e; simpl; [discriminate|].
  destruct skip as [|k]; [|apply IH].
  assert (Hb : forall p n, Examples.before p (Examples.unescape_from table s n)
                           = Raise e -> exists msg, e = Error Exception msg).
  { intros p n. unfold Examples.before.
    destruct (Examples.unescape_from table s n) eqn:Hu; [discriminate|].
    intros H. injection H as <-. eapply IH; eauto. }
  destruct (c =? 38)%N; [|apply Hb].
  destruct (Examples.charref table s) as [[[repl|e'] n]|] eqn:Hc.
  - apply Hb.
  - intros H. injection H as <-. eapply charref_raises; eauto.
  - apply Hb.
Qed.

Lemma unescape_raises table s e :
  Examples.unescape table s = Raise e -> exists msg, e = Error Exception msg.
Proof. apply unescape_from_raises. Qed.

Lemma unescape_no_amp table s :
  ~ In 38%N s -> Examples.unescape table s = Ok s.
Proof.
  unfold Examples.unescape. induction s as [|c s IH]; intros H; auto.
  simpl. destruct (N.eqb_spec c 38) as [->|Hc].
  - exfalso. apply H. now left.
  - rewrite IH; [reflexivity|]. intros Hi. apply H. now right.
Qed.

Lemma remove_html_tags_keeps_plain_text_witness :
  _remove_html_tags (E := Runs.answering (Ok None)) [97; 32; 62; 32; 98]%N
  = Ok [97; 32; 62; 32; 98]%N.
Proof.
  apply (@remove_html_tags_keeps_plain_text (Runs.answering (Ok None))).
  - intros t Ht. apply unescape_no_amp, Ht.
  - simpl. intuition discriminate.
  - simpl. intuition discriminate.
Defined.

(** ** The contract made of the model's answer *)

(** A text is its first segment alone, or its first segment, the separator
    and a rest. *)
Lemma split_first sep s :
  ~ In sep (hd [] (split sep s))
  /\ ((s = hd [] (split sep s) /\ length (split sep s) = 1%nat)
      \/ (exists r, s = hd [] (split sep s) ++ sep :: r)
         /\ (2 <= length (split sep s))%nat).
Proof.
  split.
  { pose proof (split_no_sep sep s) as H. rewrite split_hd_tl in H.
    now inversion H. }
  induction s as [|c s IH].
  - left. split; reflexivity.
  - simpl split. destruct (N.eqb_spec c sep) as [->|Hc].
    + right. split; [now exists s|].
      pose proof (split_nonempty sep s). simpl.
      destruct (split sep s); [congruence | simpl; lia].
    + pose proof (split_nonempty sep s) as Hne.
      destruct (split sep s) as [|h t]; [congruence|]. simpl in *.
      destruct IH as [[Hs Hn]|[[r Hs] Hn]].
      * left. split; [now rewrite <- Hs | exact Hn].
      * right. split; [|exact Hn]. exists r. now rewrite <- Hs.
Qed.

Lemma In_firstn (x : char) n s : In x (firstn n s) -> In x s.
Proof.
  revert s. induction n as [|n IH]; intros [|c s]; simpl; try tauto.
  intros [H|H]; auto.
Qed.

Lemma forallb_filter_id (f : char -> bool) s : forallb f (filter f s) = true.
Proof.
  induction s as [|c s IH]; auto. simpl.
  destruct (f c) eqn:Hc; auto. simpl. now rewrite Hc.
Qed.

Lemma filter_id (f : char -> bool) s : forallb f s = true -> filter f s = s.
Proof.
  induction s as [|c s IH]; auto. simpl. intros H.
  apply andb_prop in H as [Hc Hs]. rewrite Hc. f_equal. auto.
Qed.

Lemma filter_length (f : char -> bool) s : (length (filter f s) <= length s)%nat.
Proof. induction s as [|c s IH]; simpl; [|destruct (f c); simpl]; lia. Qed.

Lemma is_nrt_isspace c : is_nrt c = true -> isspace c = true.
Proof.
  unfold is_nrt. intros H.
  apply orb_prop in H as [H|H]; [apply orb_prop in H as [H|H]|];
    apply N.eqb_eq in H; subst c; reflexivity.
Qed.

Lemma lstripped_filter s :
  lstripped s = true -> lstripped (filter (fun c => negb (is_nrt c)) s) = true.
Proof.
  destruct s as [|c s]; auto. simpl. intros H.
  destruct (is_nrt c) eqn:Hn.
  - apply is_nrt_isspace in Hn. rewrite Hn in H. discriminate.
  - exact H.
Qed.

Lemma rstripped_cons c s :
  rstripped (c :: s) = match s with [] => negb (isspace c) | _ => rstripped s end.
Proof. destruct s; reflexivity. Qed.

Lemma rstripped_filter s :
  rstripped s = true -> rstripped (filter (fun c => negb (is_nrt c)) s) = true.
Proof.
  assert (Hne : forall t, rstripped t = true -> t <> [] ->
                          filter (fun c => negb (is_nrt c)) t <> []).
  { induction t as [|c t IH]; [congruence|]. intros H _.
    rewrite rstripped_cons in H. simpl. destruct t as [|d t].
    - destruct (is_nrt c) eqn:Hn; [|discriminate].
      apply is_nrt_isspace in Hn. rewrite Hn in H. discriminate.
    - destruct (is_nrt c); [|discriminate]. apply IH; [exact H | discriminate]. }
  induction s as [|c s IH]; auto. intros H.
  rewrite rstripped_cons in H. destruct s as [|d s].
  - simpl. destruct (is_nrt c); auto.
  - specialize (IH H). pose proof (Hne (d :: s) H) as Hd.
    change (filter (fun c => negb (is_nrt c)) (c :: d :: s))
      with (if negb (is_nrt c)
            then c :: filter (fun c => negb (is_nrt c)) (d :: s)
            else filter (fun c => negb (is_nrt c)) (d :: s)).
    destruct (negb (is_nrt c)); auto.
    rewrite rstripped_cons.
    destruct (filter (fun c => negb (is_nrt c)) (d :: s)); [|exact IH].
    now elim Hd.
Qed.

Lemma rstripped_snoc s c : rstripped (s ++ [c]) = negb (isspace c).
Proof.
  induction s as [|d s IH]; auto.
  simpl app. rewrite rstripped_cons. destruct (s ++ [c]) eqn:Hs; auto.
  now destruct s.
Qed.

Lemma lstripped_prefix t rest :
  lstripped (t ++ rest) = true -> t <> [] -> lstripped t = true.
Proof. destruct t; [congruence | auto]. Qed.

(** The contract and the text it is cut from. *)
Lemma contract_text_cases response_text :
  let cleaned := filter (fun c => negb (is_nrt c)) (strip response_text) in
  (contract_text response_text = cleaned
   /\ ((len cleaned <= 60)%Z \/ ~ In MARU (firstn 60 cleaned)))
  \/ (exists first rest,
         contract_text response_text = first ++ [MARU]
         /\ cleaned = first ++ MARU :: rest
         /\ ~ In MARU first
         /\ (60 < len cleaned)%Z /\ (len (first ++ [MARU]) <= 60)%Z).
Proof.
  intros cleaned. pose proof (contract_text_eq response_text) as He.
  cbv zeta in He. fold cleaned in He.
  destruct (split_first MARU cleaned) as [Hhd Hs].
  set (first := hd [] (split MARU cleaned)) in *.
  destruct (Z.ltb_spec 60 (len cleaned)) as [H60|H60];
    [|left; split; [exact He | now left]].
  destruct Hs as [[Hs Hn]|[[r Hs] Hn]].
  - left. rewrite Hn in He. simpl in He. split; [exact He|]. right.
    intros Hi. apply In_firstn in Hi. rewrite Hs in Hi. exact (Hhd Hi).
  - destruct (Nat.leb_spec 2 (length (split MARU cleaned))) as [_|]; [|lia].
    simpl andb in He.
    destruct (Z.leb_spec (len (first ++ [MARU])) 60) as [Hf|Hf].
    + right. exists first, r. auto.
    + left. split; [exact He|]. right. intros Hi.
      rewrite Hs, firstn_app in Hi.
      unfold len in Hf. rewrite length_app in Hf. simpl length in Hf.
      replace (60 - length first)%nat with 0%nat in Hi by lia.
      rewrite firstn_O, app_nil_r in Hi. apply In_firstn in Hi. exact (Hhd Hi).
Qed.

(** X7.  The contract is longer than 60 characters exactly when the answer
    of the model, stripped and rid of newlines, carriage returns and tabs,
    is longer than 60 characters and has no ['。'] among its first 60
    characters; the contract is then that whole text. *)
Theorem contract_exceeds_60_iff_no_early_stop (response_text : str) :
  let cleaned := filter (fun c => negb (is_nrt c)) (strip response_text) in
  ((60 < len (contract_text response_text))%Z
   <-> (60 < len cleaned)%Z /\ ~ In MARU (firstn 60 cleaned))
  /\ ((60 < len (contract_text response_text))%Z ->
      contract_text response_text = cleaned).
Proof.
  intros cleaned.
  pose proof (contract_text_cases response_text) as Hcases.
  cbv zeta in Hcases. fold cleaned in Hcases.
  destruct Hcases as [[He Hc]|(first & rest & He & Hs & Hf & H60 & Hl)].
  - rewrite He. split; [|auto]. split.
    + intros H. split; [exact H|]. destruct Hc as [Hc|Hc]; [lia | exact Hc].
    + tauto.
  - rewrite He. split; [|lia]. split; [lia|]. intros [_ Hn]. exfalso. apply Hn.
    rewrite Hs, firstn_app. apply in_or_app. right.
    unfold len in Hl. rewrite length_app in Hl. simpl length in Hl.
    destruct (60 - length first)%nat as [|k] eqn:Hk; [lia|]. now left.
Qed.

(** The contract holds no newline, carriage return or tab, and is stripped. *)
Lemma contract_text_clean response_text :
  forallb (fun c => negb (is_nrt c)) (contract_text response_text) = true
  /\ lstripped (contract_text response_text) = true
  /\ rstripped (contract_text response_text) = true.
Proof.
  set (cleaned := filter (fun c => negb (is_nrt c)) (strip response_text)).
  assert (Hnrt : forallb (fun c => negb (is_nrt c)) cleaned = true)
    by apply forallb_filter_id.
  assert (Hl : lstripped cleaned = true)
    by apply lstripped_filter, strip_lstripped.
  assert (Hr : rstripped cleaned = true)
    by apply rstripped_filter, strip_rstripped.
  pose proof (contract_text_cases response_text) as Hcases.
  cbv zeta in Hcases. fold cleaned in Hcases.
  destruct Hcases as [[He _]|(first & rest & He & Hs & Hf & H60 & Hle)];
    rewrite He; [auto|].
  assert (Hs' : cleaned = (first ++ [MARU]) ++ rest)
    by (now rewrite Hs, <- app_assoc).
  split; [|split].
  - rewrite Hs', forallb_app in Hnrt. now apply andb_prop in Hnrt as [Hnrt _].
  - rewrite Hs' in Hl. apply lstripped_prefix in Hl; auto. now destruct first.
  - now rewrite rstripped_snoc.
Qed.

(** X8.  The contract is a prefix of the answer of the model stripped and rid
    of newlines, carriage returns and tabs; it holds none of these three
    characters, neither begins nor ends with whitespace, and is never longer
    than the answer. *)
Theorem contract_is_one_stripped_line (response_text : str) :
  prefix_of (contract_text response_text)
            (filter (fun c => negb (is_nrt c)) (strip response_text))
  /\ forallb (fun c => negb (is_nrt c)) (contract_text response_text) = true
  /\ lstripped (contract_text response_text) = true
  /\ rstripped (contract_text response_text) = true
  /\ (len (contract_text response_text) <= len response_text)%Z.
Proof.
  destruct (contract_text_clean response_text) as (Hnrt & Hl & Hr).
  set (cleaned := filter (fun c => negb (is_nrt c)) (strip response_text)).
  assert (Hp : prefix_of (contract_text response_text) cleaned).
  { pose proof (contract_text_cases response_text) as Hcases.
    cbv zeta in Hcases. fold cleaned in Hcases.
    destruct Hcases as [[He _]|(first & rest & He & Hs & _)]; rewrite He.
    - exists []. now rewrite app_nil_r.
    - exists rest. now rewrite Hs, <- app_assoc. }
  repeat split; auto.
  destruct Hp as [rest Hp].
  pose proof (strip_length response_text).
  pose proof (filter_length (fun c => negb (is_nrt c)) (strip response_text)) as Hf.
  fold cleaned in Hf. rewrite Hp in Hf. unfold len in *.
  rewrite length_app in Hf. lia.
Qed.

(** X9.  Making a contract of a contract changes nothing: the
    post-processing of the model's answer is idempotent. *)
Theorem contract_text_idempotent (response_text : str) :
  contract_text (contract_text response_text) = contract_text response_text.
Proof.
  destruct (contract_text_clean response_text) as (Hnrt & Hl & Hr).
  pose proof (contract_text_eq (contract_text response_text)) as He.
  cbv zeta in He. rewrite (strip_id _ Hl Hr), (filter_id _ _ Hnrt) in He.
  rewrite He.
  destruct (contract_text_cases response_text)
    as [[Hc _]|(first & rest & Hc & _ & _ & _ & Hle)].
  - match goal with |- (if ?b then _ else _) = _ => destruct b eqn:Hb end; auto.
    apply andb_prop in Hb as [Hb Hb3]. apply andb_prop in Hb as [Hb1 Hb2].
    pose proof (contract_text_eq response_text) as He'. cbv zeta in He'.
    rewrite <- Hc in He'. rewrite Hb1, Hb2, Hb3 in He'. simpl in He'.
    now rewrite <- He'.
  - rewrite Hc. destruct (Z.ltb_spec 60 (len (first ++ [MARU]))); [lia|].
    reflexivity.
Qed.

(** ** The fetcher and the network *)

Section Fetcher.

Context {E : Externals}.

Lemma fetch_valid url timeout :
  validate_url url = true ->
  fetch_url_content url timeout =
  (match requests_get url timeout headers with
   | Ok response =>
     if negb (status_code response =? 200)%Z then
       Raise (HTTPException 400 (detail_status (status_code response)))
     else if negb (html_family response) then
       Raise (HTTPException 400 detail_not_html)
     else Ok (text response)
   | Raise e => fst (fetch_except e)
   end,
   [EvGet url timeout headers]).
Proof.
  intros Hv. unfold fetch_url_content. rewrite Hv. simpl negb. cbv iota.
  unfold fetch_body, http_get, bind, try_except.
  destruct (requests_get url timeout headers) as [r|e].
  - fold (content_type_of r). fold (html_family r).
    destruct (negb (status_code r =? 200)%Z); [reflexivity|].
    destruct (negb (html_family r)); reflexivity.
  - destruct e as [? ?|[] ?]; reflexivity.
Qed.

Lemma fetch_invalid url timeout :
  validate_url url = false ->
  fetch_url_content url timeout = (Raise (HTTPException 400 detail_invalid_url), []).
Proof. intros Hv. unfold fetch_url_content. now rewrite Hv. Qed.

Lemma fetch_ok_iff url timeout html t :
  fetch_url_content url timeout = (Ok html, t) <->
  validate_url url = true /\ t = [EvGet url timeout headers]
  /\ exists response,
      requests_get url timeout headers = Ok response
      /\ status_code response = 200%Z /\ html_family response = true
      /\ html = text response.
Proof.
  destruct (validate_url url) eqn:Hv.
  - rewrite fetch_valid by exact Hv.
    destruct (requests_get url timeout headers) as [r|e].
    + destruct (Z.eqb_spec (status_code r) 200) as [Hs|Hs]; simpl negb; cbv iota.
      * destruct (html_family r) eqn:Hh; simpl negb; cbv iota.
        -- split.
           ++ intros H. injection H as <- <-. repeat split. now exists r.
           ++ intros (_ & -> & r' & Hr & _ & _ & ->). now injection Hr as <-.
        -- split; [discriminate|].
           intros (_ & _ & r' & Hr & _ & Hh' & _). injection Hr as <-. congruence.
      * split; [discriminate|].
        intros (_ & _ & r' & Hr & Hs' & _). injection Hr as <-. congruence.
    + split.
      * destruct e as [? ?|[] ?]; discriminate.
      * intros (_ & _ & r' & Hr & _). discriminate.
  - rewrite fetch_invalid by exact Hv. split; [discriminate|].
    intros (H & _). discriminate.
Qed.

Lemma fetch_raise_http url timeout e :
  result (fetch_url_content url timeout) = Raise e ->
  exists c d, e = HTTPException c d
    /\ ((forall c' d', requests_get url timeout headers <> Raise (HTTPException c' d')) ->
        c = 400%Z \/ c = 500%Z).
Proof.
  destruct (validate_url url) eqn:Hv.
  - rewrite fetch_valid by exact Hv. unfold result. simpl fst.
    destruct (requests_get url timeout headers) as [r|e'].
    + destruct (negb (status_code r =? 200)%Z).
      * intros H. injection H as <-. eauto.
      * destruct (negb (html_family r)); [|discriminate].
        intros H. injection H as <-. eauto.
    + destruct e' as [c d|[] msg]; simpl; intros H; injection H as <-;
        do 2 eexists; (split; [reflexivity|]); auto.
      intros Hn. now elim (Hn c d).
  - rewrite fetch_invalid by exact Hv. intros H. injection H as <-. eauto.
Qed.

End Fetcher.

(** X10.  The fetcher sends one GET request, with the timeout it was given
    and its fixed headers, when the URL passes the validator, whatever the
    outcome; for a URL the validator rejects it raises status 400 and sends
    nothing. *)
Theorem fetch_sends_one_request_if_valid {E : Externals} (url : str) (timeout : Z) :
  calls (fetch_url_content url timeout)
  = (if validate_url url then [EvGet url timeout headers] else [])
  /\ (validate_url url = false ->
      result (fetch_url_content url timeout)
      = Raise (HTTPException 400 detail_invalid_url)).
Proof.
  destruct (validate_url url) eqn:Hv.
  - rewrite fetch_valid by exact Hv. split; [reflexivity | discriminate].
  - rewrite fetch_invalid by exact Hv. split; reflexivity.
Qed.

(** X11.  When [requests.get] raises for a validated URL, the fetcher raises
    an [HTTPException] chosen by the class of the failure: a timeout and a
    connection error give status 400 with a fixed message each, another
    [RequestException] status 400 with a message ending in the exception's
    text, any other exception status 500 with a message ending in its
    text. *)
Theorem fetch_classifies_transport_failures {E : Externals}
    (url : str) (timeout : Z) (cls : exn_class) (msg : str) :
  validate_url url = true ->
  requests_get url timeout headers = Raise (Error cls msg) ->
  result (fetch_url_content url timeout)
  = Raise (match cls with
           | Timeout => HTTPException 400 detail_timeout
           | ConnectionError => HTTPException 400 detail_connection
           | RequestException =>
             HTTPException 400 (utf8 "URLの取得中にエラーが発生しました: " ++ msg)
           | Exception =>
             HTTPException 500 (utf8 "予期しないエラーが発生しました: " ++ msg)
           end).
Proof.
  intros Hv Hr. rewrite fetch_valid by exact Hv. rewrite Hr. destruct cls; reflexivity.
Qed.

Lemma fetch_classifies_transport_failures_witness :
  result (fetch_url_content (E := MoreRuns.failing (Error Timeout []))
            Examples.URL 10)
  = Raise (HTTPException 400 detail_timeout).
Proof.
  apply (@fetch_classifies_transport_failures
           (MoreRuns.failing (Error Timeout [])) Examples.URL 10 Timeout []).
  - vm_compute. reflexivity.
  - reflexivity.
Defined.

(** ** The extractor's refusals *)

Section Extractor.

Context {E : Externals}.

(** The extractor, with its two length tests made one: the normalised text
    is stripped already, and the empty text is shorter than ten. *)
Lemma extract_eq html :
  extract_main_content html =
  match Document html with
  | Raise e => extract_except e
  | Ok doc =>
    match summary doc with
    | None | Some [] => Raise (HTTPException 400 detail_no_content)
    | Some content =>
      match full_text (title doc) content with
      | Raise e => extract_except e
      | Ok full =>
        if (len (_clean_whitespace full) <? 10)%Z
        then Raise (HTTPException 400 detail_too_short_extract)
        else Ok (_clean_whitespace full)
      end
    end
  end.
Proof.
  unfold extract_main_content, extract_body.
  destruct (Document html) as [doc|e]; [|reflexivity].
  destruct (summary doc) as [[|c content]|]; try reflexivity.
  destruct (full_text (title doc) (c :: content)) as [full|e]; [|reflexivity].
  set (t := _clean_whitespace full).
  pose proof (clean_whitespace_normalized full) as [Hl Hr _ _ _ _].
  fold t in Hl, Hr. rewrite (strip_id _ Hl Hr).
  destruct (Z.ltb_spec (len t) 10) as [H|H].
  - rewrite orb_true_r. reflexivity.
  - replace (str_eqb t []) with false; [reflexivity|].
    symmetry. apply str_eqb_nil. intros Ht. rewrite Ht in H.
    unfold len in H. simpl in H. lia.
Qed.

(** The text before normalisation fails only where the decoder does. *)
Lemma full_text_raise t content e :
  full_text t content = Raise e -> exists s, html_unescape s = Raise e.
Proof.
  unfold full_text, _remove_html_tags.
  destruct (html_unescape (Re.sub re_tag [] content)) as [body|e'] eqn:Hb.
  - destruct t as [[|c t]|]; try discriminate.
    destruct (negb (str_eqb (strip (c :: t)) [])); [|discriminate].
    destruct (html_unescape (Re.sub re_tag [] (c :: t))) as [head|e'] eqn:Hh;
      [discriminate|].
    intros H. injection H as <-. eauto.
  - intros H. injection H as <-. eauto.
Qed.

Lemma extract_raise_http html e :
  extract_main_content html = Raise e ->
  exists c d, e = HTTPException c d
    /\ ((forall c' d', Document html <> Raise (HTTPException c' d')) ->
        (forall s c' d', html_unescape s <> Raise (HTTPException c' d')) ->
        c = 400%Z \/ c = 500%Z).
Proof.
  rewrite extract_eq. destruct (Document html) as [doc|e'].
  - destruct (summary doc) as [[|c content]|].
    + intros H. injection H as <-. eauto.
    + destruct (full_text (title doc) (c :: content)) as [full|e'] eqn:Hf.
      * destruct (_ <? 10)%Z; [|discriminate]. intros H. injection H as <-. eauto.
      * apply full_text_raise in Hf as [s Hs].
        destruct e' as [c' d'|cls msg]; simpl; intros H; injection H as <-;
          do 2 eexists; (split; [reflexivity|]); auto.
        intros _ Hn. now elim (Hn s c' d').
    + intros H. injection H as <-. eauto.
  - destruct e' as [c d|cls msg]; simpl; intros H; injection H as <-;
      do 2 eexists; (split; [reflexivity|]); auto.
    intros Hn _. now elim (Hn c d).
Qed.

End Extractor.

(** X12.  When readability gives no summary, or an empty one, the extractor
    raises status 400 with the message that no content could be extracted.
    When the entities of the summary and of the title are decoded and the
    text made of the two has, once normalised, fewer than ten characters, it
    raises status 400 with the message that the text is too short.  When
    the decoding raises an exception that is no [HTTPException], it raises
    status 500 with a message ending in the text of that exception; the text
    before normalisation fails nowhere but in [html.unescape]. *)
Theorem extractor_rejects_empty_and_short {E : Externals}
    (html : str) (doc : ReadabilityDoc) :
  Document html = Ok doc ->
  (summary doc = None \/ summary doc = Some [] ->
   extract_main_content html = Raise (HTTPException 400 detail_no_content))
  /\ (forall content full,
         summary doc = Some content -> content <> [] ->
         full_text (title doc) content = Ok full ->
         (len (_clean_whitespace full) < 10)%Z ->
         extract_main_content html
         = Raise (HTTPException 400 detail_too_short_extract))
  /\ (forall content cls msg,
         summary doc = Some content -> content <> [] ->
         full_text (title doc) content = Raise (Error cls msg) ->
         extract_main_content html
         = Raise (HTTPException 500
                    (utf8 "テキスト抽出中にエラーが発生しました: " ++ msg)))
  /\ (forall content e,
         full_text (title doc) content = Raise e ->
         exists s, html_unescape s = Raise e).
Proof.
  intros Hd. rewrite extract_eq, Hd. split; [|split; [|split]].
  - intros [-> | ->]; reflexivity.
  - intros content full -> Hne Hf Hlen.
    destruct content as [|c content]; [congruence|].
    rewrite Hf. apply Z.ltb_lt in Hlen. now rewrite Hlen.
  - intros content cls msg -> Hne Hf.
    destruct content as [|c content]; [congruence|].
    rewrite Hf. reflexivity.
  - intros content e. apply full_text_raise.
Qed.

Lemma extractor_rejects_empty_and_short_witness :
  extract_main_content (E := MoreRuns.no_summary_world) Runs.article
  = Raise (HTTPException 400 detail_no_content)
  /\ extract_main_content (E := MoreRuns.tiny_world) MoreRuns.tiny
     = Raise (HTTPException 400 detail_too_short_extract)
  /\ extract_main_content (E := MoreRuns.long_reference_world)
       MoreRuns.long_reference
     = Raise (HTTPException 500
                (utf8 "テキスト抽出中にエラーが発生しました: "
                 ++ MoreRuns.long_reference_message)).
Proof.
  split; [|split].
  - refine (proj1 (@extractor_rejects_empty_and_short MoreRuns.no_summary_world
                     Runs.article MoreRuns.no_summary_doc _) _).
    + reflexivity.
    + left. reflexivity.
  - refine (proj1 (proj2 (@extractor_rejects_empty_and_short MoreRuns.tiny_world
                            MoreRuns.tiny MoreRuns.tiny_doc _))
              MoreRuns.tiny MoreRuns.tiny_full _ _ _ _).
    + reflexivity.
    + reflexivity.
    + discriminate.
    + vm_compute. reflexivity.
    + vm_compute. reflexivity.
  - refine (proj1 (proj2 (proj2 (@extractor_rejects_empty_and_short
                                   MoreRuns.long_reference_world
                                   MoreRuns.long_reference
                                   MoreRuns.long_reference_doc _)))
              MoreRuns.long_reference Exception
              MoreRuns.long_reference_message _ _ _).
    + reflexivity.
    + reflexivity.
    + discriminate.
    + vm_compute. reflexivity.
Defined.

(** ** The endpoint as a whole *)

Section Endpoint.

Context {E : Externals}.

Lemma generate_contract_unfold url :
  generate_contract url =
  match fetch_url_content url 10 with
  | (Raise e, t0) => (Raise (main_reraise e), t0)
  | (Ok html, t0) =>
    match extract_main_content html with
    | Raise e => (Raise (main_reraise e), t0)
    | Ok main_text =>
      if (len main_text <? 50)%Z
      then (Raise (HTTPException 400 detail_too_short_main), t0)
      else (answer_outcome url
              (generate_content MODEL (prompt (truncate main_text))),
            t0 ++ [EvGenerate MODEL (prompt (truncate main_text))])
    end
  end.
Proof.
  destruct (fetch_url_content url 10) as [[html|e] t0] eqn:Hf.
  - destruct (extract_main_content html) as [main_text|e] eqn:He.
    + rewrite (generate_contract_eq _ Hf He).
      destruct (extract_ok_normalized _ He) as [[Hl Hr _ _ _ _] H10].
      destruct (Z.ltb_spec (len main_text) 50) as [H|H].
      * rewrite orchestrate_short by (now rewrite strip_id).
        simpl. now rewrite app_nil_r.
      * rewrite orchestrate_long.
        -- unfold result, calls, answer_outcome. simpl fst. simpl snd.
           destruct (generate_content MODEL (prompt (truncate main_text)))
             as [[[|c r]|]|e]; reflexivity.
        -- intros ->. unfold len in H. simpl in H. lia.
        -- now rewrite strip_id.
    + apply (generate_contract_extract_raise _ Hf He).
  - apply (generate_contract_fetch_raise _ Hf).
Qed.

Lemma truncate_len s : (len (truncate s) = Z.min (len s) 150000)%Z.
Proof.
  unfold truncate. destruct (Z.gtb_spec (len s) 150000) as [H|H]; [|lia].
  rewrite slice_to_len; lia.
Qed.

End Endpoint.

(** X13.  The endpoint returns a response exactly when every stage succeeds:
    the URL passes the validator, [requests.get] returns status 200 with an
    HTML content type, readability gives a summary that is not empty, the
    decoding of the entities returns for the summary and the title, the
    normalised text has 50 characters at least, and the model, asked once
    with that text cut to 150000 characters, answers with a text that is not
    empty.  The response then holds the contract made of that answer and the
    URL of the request. *)
Theorem endpoint_succeeds_iff_every_stage_does {E : Externals}
    (request_url : str) (r : ContractResponse) :
  result (generate_contract request_url) = Ok r
  <-> exists response doc content full answer,
      validate_url request_url = true
      /\ requests_get request_url 10 headers = Ok response
      /\ status_code response = 200%Z
      /\ html_family response = true
      /\ Document (text response) = Ok doc
      /\ summary doc = Some content /\ content <> []
      /\ full_text (title doc) content = Ok full
      /\ (50 <= len (_clean_whitespace full))%Z
      /\ generate_content MODEL (prompt (truncate (_clean_whitespace full)))
         = Ok (Some answer)
      /\ answer <> []
      /\ r = {| contract := contract_text answer; url := request_url |}.
Proof.
  rewrite generate_contract_unfold. split.
  - destruct (fetch_url_content request_url 10) as [[html|e] t0] eqn:Hf;
      [|discriminate].
    apply fetch_ok_iff in Hf as (Hv & _ & response & Hg & Hs & Hh & ->).
    destruct (extract_main_content (text response)) as [main_text|e] eqn:He;
      [|discriminate].
    destruct (extract_ok _ He)
      as (doc & content & full & Hd & Hsum & Hne & Hfull & -> & _).
    destruct (Z.ltb_spec (len (_clean_whitespace full)) 50) as [H|H];
      [discriminate|].
    unfold result, answer_outcome. simpl fst.
    destruct (generate_content MODEL _) as [[[|c a]|]|e] eqn:Ha;
      try discriminate.
    intros Hr. injection Hr as <-.
    exists response, doc, content, full, (c :: a).
    repeat split; auto. discriminate.
  - intros (response & doc & content & full & answer & Hv & Hg & Hs & Hh & Hd
            & Hsum & Hne & Hfull & H50 & Ha & Hane & ->).
    assert (Hf : fetch_url_content request_url 10
                 = (Ok (text response), [EvGet request_url 10 headers])).
    { apply fetch_ok_iff. repeat split; auto. now exists response. }
    rewrite Hf, extract_eq, Hd, Hsum.
    destruct content as [|c content]; [congruence|].
    rewrite Hfull.
    destruct (Z.ltb_spec (len (_clean_whitespace full)) 10); [lia|].
    destruct (Z.ltb_spec (len (_clean_whitespace full)) 50); [lia|].
    rewrite Ha. destruct answer; [congruence | reflexivity].
Qed.

(** X14.  The endpoint raises nothing but an [HTTPException]; as long as no
    library raises an [HTTPException] of its own, its status is 400 or
    500. *)
Theorem endpoint_raises_only_400_or_500 {E : Externals}
    (request_url : str) (e : exn) :
  result (generate_contract request_url) = Raise e ->
  (exists c d, e = HTTPException c d)
  /\ (raise_no_http E ->
      exists d, e = HTTPException 400 d \/ e = HTTPException 500 d).
Proof.
  intros H.
  assert (Hk : exists c d, e = HTTPException c d
                 /\ (raise_no_http E -> c = 400%Z \/ c = 500%Z)).
  { rewrite generate_contract_unfold in H.
    destruct (fetch_url_content request_url 10) as [[html|e'] t0] eqn:Hf.
    - destruct (extract_main_content html) as [main_text|e'] eqn:He.
      + destruct (len main_text <? 50)%Z.
        * injection H as <-. eauto.
        * unfold result, answer_outcome in H. simpl fst in H.
          destruct (generate_content MODEL _) as [[[|c a]|]|e'] eqn:Ha;
            try discriminate; injection H as <-; eauto.
          destruct e' as [c d|cls msg]; simpl; eauto.
          do 2 eexists. split; [reflexivity|].
          intros (_ & _ & _ & Hn). now elim (Hn _ _ _ _ Ha).
      + destruct (extract_raise_http _ He) as (c & d & -> & Hc).
        injection H as <-. exists c, d. split; [reflexivity|].
        intros (_ & Hn & Hu & _). apply Hc; [intros c' d'; apply Hn | exact Hu].
    - assert (Hr : result (fetch_url_content request_url 10) = Raise e')
        by now rewrite Hf.
      destruct (fetch_raise_http _ _ Hr) as (c & d & -> & Hc).
      injection H as <-. exists c, d. split; [reflexivity|].
      intros (Hn & _). apply Hc. intros c' d'. apply Hn. }
  destruct Hk as (c & d & -> & Hc). split; [eauto|].
  intros Hn. exists d. destruct (Hc Hn) as [-> | ->]; auto.
Qed.

Lemma endpoint_raises_only_400_or_500_witness :
  raise_no_http (Runs.answering (Ok None))
  /\ result (generate_contract (E := Runs.answering (Ok None)) Examples.URL)
     = Raise (HTTPException 500 detail_generation_failed)
  /\ exists d,
      HTTPException 500 detail_generation_failed = HTTPException 400 d
      \/ HTTPException 500 detail_generation_failed = HTTPException 500 d.
Proof.
  assert (Hn : raise_no_http (Runs.answering (Ok None))).
  { split; [|split; [|split]]; try (intros; discriminate).
    intros s c d Hs. apply unescape_raises in Hs as [msg Hs]. discriminate. }
  assert (Hr : result (generate_contract (E := Runs.answering (Ok None))
                         Examples.URL)
               = Raise (HTTPException 500 detail_generation_failed)).
  { vm_compute. reflexivity. }
  split; [exact Hn|]. split; [exact Hr|].
  exact (proj2 (@endpoint_raises_only_400_or_500 (Runs.answering (Ok None))
                  Examples.URL _ Hr) Hn).
Defined.

(** X15.  The endpoint sends nothing for a URL the validator rejects.  For
    any other URL it sends one GET request to that URL, with a timeout of 10
    seconds, and after it at most one request to the model [gemini-2.5-pro],
    whose text ends with between 50 and 150000 characters of page text.  The
    model is asked exactly when the fetcher and the extractor succeed with a
    text of 50 characters at least. *)
Theorem endpoint_sends_get_then_one_prompt {E : Externals} (request_url : str) :
  (validate_url request_url = false -> calls (generate_contract request_url) = [])
  /\ (validate_url request_url = true ->
      calls (generate_contract request_url) = [EvGet request_url 10 headers]
      \/ exists main_text,
          calls (generate_contract request_url)
          = [EvGet request_url 10 headers; EvGenerate MODEL (prompt main_text)]
          /\ (50 <= len main_text <= 150000)%Z)
  /\ (model_calls (calls (generate_contract request_url)) <> []
      <-> exists html t0 main_text,
          fetch_url_content request_url 10 = (Ok html, t0)
          /\ extract_main_content html = Ok main_text
          /\ (50 <= len main_text)%Z).
Proof.
  rewrite generate_contract_unfold.
  destruct (validate_url request_url) eqn:Hv.
  - pose proof (@fetch_valid E request_url 10 Hv) as Hf.
    destruct (fetch_url_content request_url 10) as [[html|e] t0] eqn:Hf'.
    + injection Hf as _ ->.
      destruct (extract_main_content html) as [main_text|e] eqn:He.
      * destruct (Z.ltb_spec (len main_text) 50) as [H|H].
        -- split; [discriminate|]. split; [now left|]. split.
           ++ intros Hm. exfalso. apply Hm. reflexivity.
           ++ intros (h & t & m & Hh & Hm & H50).
              injection Hh as <- _. rewrite He in Hm. injection Hm as <-. lia.
        -- split; [discriminate|]. split.
           ++ intros _. right. exists (truncate main_text).
              split; [reflexivity|]. rewrite truncate_len. lia.
           ++ split; [|discriminate]. intros _. now exists html, [EvGet request_url 10 headers], main_text.
      * split; [discriminate|]. split; [now left|]. split.
        -- intros Hm. exfalso. apply Hm. reflexivity.
        -- intros (h & t & m & Hh & Hm & _).
           injection Hh as <- _. rewrite He in Hm. discriminate.
    + injection Hf as _ ->. split; [discriminate|]. split; [now left|]. split.
      * intros Hm. exfalso. apply Hm. reflexivity.
      * intros (h & t & m & Hh & _). discriminate.
  - rewrite fetch_invalid by exact Hv. split; [reflexivity|].
    split; [discriminate|]. split.
    + intros Hm. exfalso. apply Hm. reflexivity.
    + intros (h & t & m & Hh & _). discriminate.
Qed.

(** ** [_clean_whitespace] against its reference *)

Lemma squeeze_cons started nls buf c s :
  squeeze_from started nls buf (c :: s) =
  if isspace c then
    squeeze_from started ((if is_LF c then 1 else 0) + nls) (push c buf) s
  else (if started then sep nls buf else []) ++ c :: squeeze_from true 0 [] s.
Proof. reflexivity. Qed.

Lemma squeeze_same_gap s :
  forall st n b n' b',
    same_gap st n b n' b' -> squeeze_from st n b s = squeeze_from st n' b' s.
Proof.
  induction s as [|c s IH]; intros st n b n' b' H; auto.
  rewrite !squeeze_cons. destruct (isspace c).
  - apply IH. unfold same_gap in *.
    destruct H as [H|[(-> & -> & ->)|[(-> & ->)|(H1 & H2)]]].
    + now left.
    + destruct (is_LF c); simpl; auto.
    + destruct (is_LF c); simpl; [|auto]. right. right. right. lia.
    + right. right. right. lia.
  - f_equal. destruct st; auto.
    destruct H as [H|[(-> & -> & ->)|[(-> & ->)|(H1 & H2)]]];
      try discriminate; auto.
    destruct n as [|[|n]], n' as [|[|n']]; try lia; reflexivity.
Qed.

(** The pass over the text after [re.sub(r' +', ' ', text)]. *)
Lemma push_SP buf : exists b, push SP buf = SP :: b.
Proof.
  destruct buf as [|x buf]; simpl; [now exists []|].
  destruct (x =? SP)%N eqn:Hx.
  - apply N.eqb_eq in Hx. subst x. now exists buf.
  - now exists (x :: buf).
Qed.

Lemma squeeze_skip_spaces t :
  forall st n b,
    squeeze_from st n (SP :: b) t
    = squeeze_from st n (SP :: b) (skipn (span (N.eqb SP) t) t).
Proof.
  induction t as [|c t IH]; intros st n b; auto. simpl span.
  destruct (N.eqb_spec SP c) as [<-|Hc]; [|reflexivity].
  simpl skipn. rewrite <- IH. reflexivity.
Qed.

Lemma squeeze_sub_spaces s :
  forall st n b,
    squeeze_from st n b (Re.sub re_spaces [SP] s) = squeeze_from st n b s.
Proof.
  apply (sub_ind re_spaces [SP]
           (fun s r => forall st n b,
                squeeze_from st n b r = squeeze_from st n b s)); auto.
  - intros c t _ IH st n b. rewrite !squeeze_cons.
    destruct (isspace c); now rewrite IH.
  - intros c t n0 Hm IH st n b. unfold re_spaces in Hm. rewrite match_plus in Hm.
    destruct (N.eqb_spec SP c) as [<-|]; [|discriminate]. injection Hm as <-.
    simpl app. rewrite !squeeze_cons. change (isspace SP) with true. cbv iota.
    rewrite IH. destruct (push_SP b) as [b' ->]. symmetry.
    apply squeeze_skip_spaces.
Qed.

(** The pass over the text after [re.sub(r'\n\s*\n\s*\n+', '\n\n', text)]. *)
Lemma squeeze_skip_blank t :
  forall st n1 b1 n2 b2,
    (1 <= n1)%nat -> (2 <= n2)%nat -> (2 <= n1 + wsnl t)%nat ->
    squeeze_from st n1 b1 t = squeeze_from st n2 b2 (skipn (lastnl t) t).
Proof.
  induction t as [|c t IH]; intros st n1 b1 n2 b2 H1 H2 H; auto.
  simpl wsnl in H. simpl lastnl. destruct (isspace c) eqn:Hc.
  - destruct (lastnl t) as [|m] eqn:Hl.
    + destruct (is_LF c) eqn:HL.
      * simpl skipn. rewrite squeeze_cons, Hc, HL.
        apply squeeze_same_gap. right. right. right. lia.
      * apply lastnl_wsnl in Hl. rewrite Hl in H. simpl skipn.
        apply squeeze_same_gap. right. right. right. lia.
    + change (skipn (S (S m)) (c :: t)) with (skipn (S m) t).
      rewrite squeeze_cons, Hc. apply IH; destruct (is_LF c); lia.
  - simpl skipn. apply squeeze_same_gap. right. right. right. lia.
Qed.

Lemma squeeze_sub_blank_lines s :
  forall st n b,
    squeeze_from st n b (Re.sub re_blank_lines [LF; LF] s) = squeeze_from st n b s.
Proof.
  apply (sub_ind re_blank_lines [LF; LF]
           (fun s r => forall st n b,
                squeeze_from st n b r = squeeze_from st n b s)); auto.
  - intros c t _ IH st n b. rewrite !squeeze_cons.
    destruct (isspace c); now rewrite IH.
  - intros c t n0 Hm IH st n b. rewrite match_blank_lines in Hm.
    destruct (is_LF c) eqn:HL; [|discriminate].
    destruct (Nat.leb_spec 2 (wsnl t)) as [Hw|]; [|discriminate].
    simpl in Hm. injection Hm as <-.
    pose proof (isspace_LF _ HL) as Hc.
    unfold is_LF in HL. apply N.eqb_eq in HL. subst c.
    simpl app. rewrite !squeeze_cons, Hc. rewrite IH. symmetry.
    apply squeeze_skip_blank; simpl; lia.
Qed.

(** The pass over the text after its lines were stripped. *)
Lemma not_LF_in c (w : str) : ~ In LF (c :: w) -> is_LF c = false /\ ~ In LF w.
Proof.
  intros H. split.
  - unfold is_LF. apply N.eqb_neq. intros <-. apply H. now left.
  - intros Hi. apply H. now right.
Qed.

Lemma squeeze_line_start w :
  forall st n b z,
    at_line_start st n -> forallb isspace w = true -> ~ In LF w ->
    squeeze_from st n b (w ++ z) = squeeze_from st n b z.
Proof.
  induction w as [|c w IH]; intros st n b z Hs Hw Hn; auto.
  simpl in Hw. apply andb_prop in Hw as [Hc Hw].
  apply not_LF_in in Hn as [HL Hn].
  simpl app. rewrite squeeze_cons, Hc, HL. simpl Nat.add. rewrite IH; auto.
  apply squeeze_same_gap. destruct Hs as [->|Hs]; [now left|].
  right. right. destruct n as [|[|n]]; [lia | now left | right; lia].
Qed.

Lemma squeeze_leading w :
  forall n b z,
    forallb isspace w = true ->
    squeeze_from false n b (w ++ z) = squeeze_from false n b z.
Proof.
  induction w as [|c w IH]; intros n b z Hw; auto.
  simpl in Hw. apply andb_prop in Hw as [Hc Hw].
  simpl app. rewrite squeeze_cons, Hc, IH by assumption.
  apply squeeze_same_gap. now left.
Qed.

Lemma squeeze_newline st n b z :
  squeeze_from st n b (LF :: z) = squeeze_from st (S n) (push LF b) z.
Proof. reflexivity. Qed.

Lemma squeeze_before_newline w :
  forall st n b z,
    forallb isspace w = true -> ~ In LF w ->
    squeeze_from st n b (w ++ LF :: z) = squeeze_from st n b (LF :: z).
Proof.
  induction w as [|c w IH]; intros st n b z Hw Hn; auto.
  simpl in Hw. apply andb_prop in Hw as [Hc Hw].
  apply not_LF_in in Hn as [HL Hn].
  simpl app. rewrite squeeze_cons, Hc, HL. simpl Nat.add.
  rewrite IH by assumption. rewrite !squeeze_newline.
  apply squeeze_same_gap. right. right.
  destruct n as [|n]; [now left | right; lia].
Qed.

Lemma squeeze_rstrip u :
  forall st n b, squeeze_from st n b (rstrip u) = squeeze_from st n b u.
Proof.
  induction u as [|c u IH]; intros st n b; auto.
  rewrite rstrip_cons. destruct (rstrip u) as [|x r] eqn:Hr.
  - destruct (isspace c) eqn:Hc.
    + rewrite squeeze_cons, Hc, <- IH. reflexivity.
    + rewrite (squeeze_cons _ _ _ c u), (squeeze_cons _ _ _ c []), Hc, <- IH.
      reflexivity.
  - rewrite (squeeze_cons _ _ _ c u), (squeeze_cons _ _ _ c (x :: r)).
    destruct (isspace c); now rewrite IH.
Qed.

Lemma rstrip_nil_all_space u : rstrip u = [] -> forallb isspace u = true.
Proof.
  induction u as [|c u IH]; auto. rewrite rstrip_cons.
  destruct (rstrip u); [|discriminate].
  destruct (isspace c) eqn:Hc; [|discriminate].
  intros _. simpl. rewrite Hc. auto.
Qed.

Lemma lstrip_split s :
  exists w, s = w ++ lstrip s /\ forallb isspace w = true
            /\ forall x, In x w -> In x s.
Proof.
  induction s as [|c s (w & Hs & Hw & Hi)].
  - exists []. repeat split; auto.
  - simpl lstrip. destruct (isspace c) eqn:Hc.
    + exists (c :: w). simpl. rewrite Hc, <- Hs. repeat split; auto.
      intros x [Hx|Hx]; auto.
    + exists []. repeat split; auto. intros x [].
Qed.

Lemma squeeze_line u x x' :
  (forall st n b, at_line_start st n ->
                  squeeze_from st n b x' = squeeze_from st n b x) ->
  ~ In LF u ->
  forall st n b,
    squeeze_from st n b (rstrip u ++ LF :: x')
    = squeeze_from st n b (u ++ LF :: x).
Proof.
  intros H.
  assert (Hb : forall st n b,
             squeeze_from st n b (LF :: x') = squeeze_from st n b (LF :: x)).
  { intros st n b. rewrite !squeeze_newline. apply H. right. lia. }
  induction u as [|c u IH]; intros Hn st n b.
  - apply Hb.
  - apply not_LF_in in Hn as [HL Hn]. specialize (IH Hn).
    rewrite rstrip_cons. destruct (rstrip u) as [|y r] eqn:Hr.
    + destruct (isspace c) eqn:Hc.
      * simpl app. rewrite Hb. symmetry.
        apply (squeeze_before_newline (c :: u)).
        -- simpl. rewrite Hc. now apply rstrip_nil_all_space.
        -- intros [Hi|Hi]; [|now apply Hn].
           unfold is_LF in HL. apply N.eqb_neq in HL. congruence.
      * simpl app. simpl app in IH.
        rewrite (squeeze_cons _ _ _ c (LF :: x')),
          (squeeze_cons _ _ _ c (u ++ LF :: x)), Hc.
        now rewrite IH.
    + simpl app. simpl app in IH.
      rewrite (squeeze_cons _ _ _ c (y :: r ++ LF :: x')),
        (squeeze_cons _ _ _ c (u ++ LF :: x)).
      destruct (isspace c); now rewrite IH.
Qed.

Lemma squeeze_lstrip_line l st n b z :
  at_line_start st n -> ~ In LF l ->
  squeeze_from st n b (lstrip l ++ z) = squeeze_from st n b (l ++ z).
Proof.
  intros Hs Hn. destruct (lstrip_split l) as (w & Hl & Hw & Hi).
  rewrite Hl at 2. rewrite <- app_assoc. symmetry.
  apply squeeze_line_start; auto.
Qed.

Lemma squeeze_strip_lines ls :
  Forall (fun l => ~ In LF l) ls ->
  forall st n b,
    at_line_start st n ->
    squeeze_from st n b (join [LF] (map strip ls))
    = squeeze_from st n b (join [LF] ls).
Proof.
  induction ls as [|l ls IH]; intros Hall st n b Hs; auto.
  inversion Hall as [|? ? Hl Hls]; subst. specialize (IH Hls).
  destruct ls as [|l2 ls].
  - simpl. unfold strip. rewrite squeeze_rstrip.
    pose proof (@squeeze_lstrip_line l st n b [] Hs Hl) as Hz.
    now rewrite !app_nil_r in Hz.
  - change (map strip (l :: l2 :: ls))
      with (strip l :: strip l2 :: map strip ls).
    rewrite !join_cons. simpl app.
    change (strip l2 :: map strip ls) with (map strip (l2 :: ls)).
    unfold strip at 1.
    rewrite (@squeeze_line (lstrip l) (join [LF] (l2 :: ls))
               (join [LF] (map strip (l2 :: ls)))).
    + now apply squeeze_lstrip_line.
    + intros st' n' b' Hs'. now apply IH.
    + intros Hi. apply Hl. now apply lstrip_In.
Qed.

Lemma squeeze_strip x : squeeze (strip x) = squeeze x.
Proof.
  unfold squeeze, strip. rewrite squeeze_rstrip.
  destruct (lstrip_split x) as (w & Hx & Hw & _).
  rewrite Hx at 2. symmetry. now apply squeeze_leading.
Qed.

(** Every step of [_clean_whitespace] leaves the pass as it is. *)
Lemma squeeze_clean_whitespace s : squeeze (_clean_whitespace s) = squeeze s.
Proof.
  unfold _clean_whitespace. rewrite squeeze_strip. unfold squeeze.
  rewrite squeeze_strip_lines; [|apply split_no_sep | now left].
  rewrite join_split, squeeze_sub_blank_lines. apply squeeze_sub_spaces.
Qed.

(** The pass leaves a normalised text as it is. *)
Lemma lines_l_after_tail c u : lines_l_after (c :: u) -> lines_l_after u.
Proof.
  unfold lines_l_after, other_lines. rewrite lines_cons.
  destruct (is_LF c); simpl; auto.
  intros H. now inversion H.
Qed.

Lemma tidy_tail c u : tidy (c :: u) -> tidy u.
Proof.
  intros (Hn & Ho & Hr & Hl & Hs). repeat split.
  - eapply nodsp_tail; eauto.
  - apply (ok2_skipn 1 _ Ho).
  - eapply lines_r_tail; eauto.
  - eapply lines_l_after_tail; eauto.
  - eapply rstripped_tail; eauto.
Qed.

Lemma tidy_app w t : tidy (w ++ t) -> tidy t.
Proof.
  induction w as [|c w IH]; auto. simpl app. intros H.
  apply IH. eapply tidy_tail; eauto.
Qed.

Lemma all_space_rstripped w :
  forallb isspace w = true -> rstripped w = true -> w = [].
Proof.
  induction w as [|c w IH]; auto. simpl forallb. intros H Hr.
  apply andb_prop in H as [Hc Hw]. rewrite rstripped_cons in Hr.
  destruct w as [|d w].
  - rewrite Hc in Hr. discriminate.
  - specialize (IH Hw Hr). discriminate.
Qed.

Lemma sep_gap n b w : gap_of n b w -> sep n b = w.
Proof.
  intros [(-> & -> & _)|[(-> & ->)|(-> & ->)]]; auto.
  simpl. apply rev_involutive.
Qed.

Lemma gap_all_space n b w : gap_of n b w -> forallb isspace w = true.
Proof.
  intros [(_ & _ & H & _)|[(_ & ->)|(_ & ->)]]; auto.
Qed.

Lemma wsnl_LF s : wsnl (LF :: s) = S (wsnl s).
Proof. reflexivity. Qed.

Lemma lines_l_after_LF c t :
  isspace c = true -> is_LF c = false -> ~ lines_l_after (LF :: c :: t).
Proof.
  intros Hc HL H. unfold lines_l_after, other_lines in H.
  rewrite lines_cons in H. change (is_LF LF) with true in H. simpl in H.
  inversion H as [|? ? Hf _]; subst. unfold first_line in Hf.
  rewrite lines_cons, HL in Hf. simpl in Hf. rewrite Hc in Hf. discriminate.
Qed.

Lemma gap_step n b w c t :
  gap_of n b w -> tidy (w ++ c :: t) -> isspace c = true ->
  gap_of ((if is_LF c then 1 else 0) + n) (push c b) (w ++ [c]).
Proof.
  intros Hg (Hn & Ho & Hr & Hl & _) Hc. destruct (is_LF c) eqn:HL.
  - unfold is_LF in HL. apply N.eqb_eq in HL. subst c.
    destruct Hg as [(-> & -> & Hw & Hi)|[(-> & ->)|(-> & ->)]].
    + right. left. split; auto.
      unfold lines_r in Hr. rewrite split_app_sep in Hr by assumption.
      inversion Hr as [|? ? Hrs _]; subst.
      now rewrite (all_space_rstripped _ Hw Hrs).
    + right. right. split; auto.
    + apply ok2_wsnl in Ho. simpl app in Ho. rewrite !wsnl_LF in Ho. lia.
  - destruct Hg as [(-> & -> & Hw & Hi)|[(-> & ->)|(-> & ->)]].
    + left. split; auto. split; [|split].
      * rewrite rev_app_distr. simpl.
        destruct (rev w) as [|x r] eqn:Hrev; auto. simpl.
        destruct (N.eqb_spec c SP) as [->|]; auto.
        destruct (N.eqb_spec x SP) as [->|]; auto.
        exfalso. assert (Hw' : w = rev r ++ [SP]).
        { rewrite <- (rev_involutive w), Hrev. reflexivity. }
        rewrite Hw', <- app_assoc in Hn. simpl app in Hn.
        apply (nodsp_skipn (length (rev r))) in Hn.
        rewrite skipn_app, skipn_all, Nat.sub_diag in Hn. simpl in Hn.
        discriminate.
      * rewrite forallb_app, Hw. simpl. now rewrite Hc.
      * intros Hin. apply in_app_or in Hin as [Hin|[Hin|[]]]; auto.
        unfold is_LF in HL. apply N.eqb_neq in HL. congruence.
    + exfalso. now apply (@lines_l_after_LF c t Hc HL).
    + exfalso. apply (@lines_l_after_LF c t Hc HL).
      now apply lines_l_after_tail with LF.
Qed.

Lemma squeeze_tidy t :
  forall w n b,
    gap_of n b w -> tidy (w ++ t) -> squeeze_from true n b t = w ++ t.
Proof.
  induction t as [|c t IH]; intros w n b Hg Ht.
  - rewrite app_nil_r in *. destruct Ht as (_ & _ & _ & _ & Hr).
    now rewrite (all_space_rstripped _ (gap_all_space Hg) Hr).
  - rewrite squeeze_cons. destruct (isspace c) eqn:Hc.
    + replace (w ++ c :: t) with ((w ++ [c]) ++ t)
        by (now rewrite <- app_assoc).
      apply IH.
      * now apply gap_step with t.
      * now rewrite <- app_assoc.
    + rewrite (sep_gap Hg). f_equal. f_equal.
      apply (IH [] 0%nat []).
      * left. repeat split; auto.
      * apply tidy_app in Ht. now apply tidy_tail in Ht.
Qed.

Lemma squeeze_normalized t : normalized t -> squeeze t = t.
Proof.
  intros [Hl Hr Hn Ho Hll Hlr]. destruct t as [|c t]; auto.
  unfold squeeze. rewrite squeeze_cons. simpl in Hl.
  destruct (isspace c); [discriminate|]. simpl app. f_equal.
  apply (squeeze_tidy t (w := [])).
  - left. repeat split; auto.
  - apply tidy_tail with c. repeat split; auto.
    unfold lines_l in Hll. unfold lines_l_after, other_lines.
    rewrite (split_hd_tl LF (c :: t)) in Hll. now inversion Hll.
Qed.

Lemma clean_whitespace_squeeze s : _clean_whitespace s = squeeze s.
Proof.
  rewrite <- (squeeze_clean_whitespace s).
  symmetry. apply squeeze_normalized, clean_whitespace_normalized.
Qed.

(** X16.  [_clean_whitespace] is one pass over the text from the left: the
    whitespace before the first visible character and after the last is
    dropped, and each run of whitespace between two visible characters is
    replaced by one newline when it holds one newline, by two newlines when
    it holds more, and otherwise stays, with each run of spaces in it made
    one space. *)
Theorem clean_whitespace_is_one_pass (s : str) :
  _clean_whitespace s = squeeze s.
Proof.
  transitivity (squeeze (_clean_whitespace s)).
  - symmetry. apply squeeze_normalized, clean_whitespace_normalized.
  - apply squeeze_clean_whitespace.
Qed.

(** The pass over two texts with a blank line between them. *)
Lemma squeeze_after_blank b :
  forall st n buf n' buf',
    (2 <= n)%nat ->
    squeeze_from st n buf b
    = (if st && negb (forallb isspace b) then [LF; LF] else [])
      ++ squeeze_from false n' buf' b.
Proof.
  induction b as [|c b IH]; intros st n buf n' buf' Hn.
  - simpl. now rewrite andb_false_r.
  - rewrite !(squeeze_cons _ _ _ c b). simpl forallb.
    destruct (isspace c) eqn:Hc.
    + simpl andb. apply IH. lia.
    + simpl andb. rewrite andb_true_r. destruct st; auto.
      destruct n as [|[|n]]; [lia | lia | reflexivity].
Qed.

Lemma squeeze_app_blank a :
  forall st n buf b,
    squeeze_from st n buf (a ++ LF :: LF :: b)
    = squeeze_from st n buf a
      ++ (if (st || negb (forallb isspace a)) && negb (forallb isspace b)
          then [LF; LF] else [])
      ++ squeeze b.
Proof.
  induction a as [|c a IH]; intros st n buf b.
  - simpl app. rewrite !squeeze_newline. simpl forallb.
    rewrite orb_false_r. unfold squeeze. apply squeeze_after_blank. lia.
  - change ((c :: a) ++ LF :: LF :: b) with (c :: (a ++ LF :: LF :: b)).
    rewrite (squeeze_cons _ _ _ c (a ++ LF :: LF :: b)),
      (squeeze_cons _ _ _ c a). simpl forallb.
    destruct (isspace c) eqn:Hc.
    + simpl andb. apply IH.
    + rewrite IH. simpl. rewrite orb_true_r. rewrite <- !app_assoc.
      reflexivity.
Qed.

(** X17.  Normalising two texts joined by a blank line gives the two
    normalised texts joined by a blank line; when one of the two is made of
    whitespace only, it gives the other one normalised, without the blank
    line. *)
Theorem clean_whitespace_of_two_paragraphs (a b : str) :
  _clean_whitespace (a ++ [LF; LF] ++ b)
  = _clean_whitespace a
    ++ (if negb (forallb isspace a) && negb (forallb isspace b)
        then [LF; LF] else [])
    ++ _clean_whitespace b.
Proof.
  rewrite !clean_whitespace_squeeze. unfold squeeze at 1 2.
  simpl app. apply squeeze_app_blank.
Qed.

(** ** The title and the body of the extracted text *)

Lemma clean_whitespace_blankb s :
  str_eqb (_clean_whitespace s) [] = forallb isspace s.
Proof.
  pose proof (wsdel_visible (wsdel_clean_whitespace s)) as Hv.
  destruct (forallb isspace s) eqn:Hs.
  - apply str_eqb_eq. apply visible_nil in Hs. rewrite Hs in Hv.
    apply visible_nil in Hv.
    pose proof (clean_whitespace_normalized s) as [_ Hr _ _ _ _].
    now apply all_space_rstripped.
  - apply str_eqb_nil. intros H. rewrite H in Hv.
    symmetry in Hv. apply visible_nil in Hv. congruence.
Qed.

Lemma strip_blankb s : str_eqb (strip s) [] = forallb isspace s.
Proof.
  destruct (forallb isspace s) eqn:Hs.
  - now rewrite strip_all_space.
  - apply str_eqb_nil. intros H.
    assert (Hv : visible (strip s) = visible s)
      by apply wsdel_visible, wsdel_strip.
    rewrite H in Hv. symmetry in Hv. apply visible_nil in Hv. congruence.
Qed.

(** X18.  When the extractor returns a text, the entities of the summary
    were decoded, and the text is the normalised summary alone when the
    title is missing or made of whitespace only.  With any other title the
    entities of the title were decoded too, and the text is the title and
    the summary, each without its tags and normalised on its own, with one
    blank line between them; the blank line is left out when one of the two
    comes out empty. *)
Theorem extracted_text_is_title_then_body {E : Externals}
    (html : str) (doc : ReadabilityDoc) (content text : str) :
  Document html = Ok doc ->
  summary doc = Some content ->
  extract_main_content html = Ok text ->
  exists clean_content,
    _remove_html_tags content = Ok clean_content
    /\ let body := _clean_whitespace clean_content in
       (title doc = None
        \/ (exists t, title doc = Some t /\ forallb isspace t = true) ->
        text = body)
       /\ (forall t,
              title doc = Some t -> forallb isspace t = false ->
              exists clean_title,
                _remove_html_tags t = Ok clean_title
                /\ let head := _clean_whitespace clean_title in
                   text = head
                          ++ (if negb (str_eqb head [])
                                 && negb (str_eqb body [])
                              then [LF; LF] else [])
                          ++ body).
Proof.
  intros Hd Hs He.
  destruct (extract_ok _ He)
    as (doc' & content' & full & Hd' & Hs' & _ & Hf & -> & _).
  rewrite Hd in Hd'. injection Hd' as <-.
  rewrite Hs in Hs'. injection Hs' as <-.
  unfold full_text in Hf.
  destruct (_remove_html_tags content) as [clean_content|e]; [|discriminate].
  exists clean_content. split; [reflexivity|]. cbv zeta. split.
  - intros [Ht|(t & Ht & Hb)]; rewrite Ht in Hf.
    + now injection Hf as <-.
    + destruct t as [|c t]; [now injection Hf as <-|].
      rewrite strip_blankb, Hb in Hf. now injection Hf as <-.
  - intros t Ht Hb. rewrite Ht in Hf.
    destruct t as [|c t]; [discriminate|].
    rewrite strip_blankb, Hb in Hf. simpl negb in Hf. cbv iota in Hf.
    destruct (_remove_html_tags (c :: t)) as [clean_title|e]; [|discriminate].
    injection Hf as <-. exists clean_title. split; [reflexivity|].
    rewrite !clean_whitespace_blankb.
    rewrite !clean_whitespace_squeeze. unfold squeeze at 1 2.
    simpl app. apply squeeze_app_blank.
Qed.

Lemma extracted_text_is_title_then_body_witness :
  exists clean_content,
    _remove_html_tags (E := Runs.answering (Ok None)) Runs.article
    = Ok clean_content
    /\ let body := _clean_whitespace clean_content in
       (title MoreRuns.article_doc = None
        \/ (exists t, title MoreRuns.article_doc = Some t
                      /\ forallb isspace t = true) ->
        Runs.article_text = body)
       /\ (forall t,
              title MoreRuns.article_doc = Some t -> forallb isspace t = false ->
              exists clean_title,
                _remove_html_tags (E := Runs.answering (Ok None)) t
                = Ok clean_title
                /\ let head := _clean_whitespace clean_title in
                   Runs.article_text
                   = head
                     ++ (if negb (str_eqb head [])
                            && negb (str_eqb body [])
                         then [LF; LF] else [])
                     ++ body).
Proof.
  refine (@extracted_text_is_title_then_body (Runs.answering (Ok None))
            Runs.article MoreRuns.article_doc Runs.article
            Runs.article_text _ _ _).
  - reflexivity.
  - reflexivity.
  - vm_compute. reflexivity.
Defined.
